(** * A shallow embedding of the pokemon-alos simulation core

    Sources: [src/pokemon_alos.py] (agent), [src/items.py] (items and the
    item manager) and [src/simulation_engine.py] (the tick).

    Modelling choices:
    - Python floats (positions, random draws, distances) are idealised as
      Stdlib reals; [np.sqrt] and [** 0.5] are [sqrt].
    - hp, energy, effect values and relationship levels are Python ints: [Z].
    - a dict [relationships] is a [gmap string Z].
    - the engine's objects are mutated in place and aliased through
      [pokemon_list]; the model keeps the agents in a list in the engine state
      and reads and writes them by their index in that list.
    - Python's [random] module is a stream of draws in the state; each call
      of [random.random], [uniform], [randint], [choice] and [sample] consumes
      draws from it.
    - the two external collaborators (the narrator [ALOsSystem] and the
      context source [PokemonRAG]) are record fields returning either an
      exception or a value. *)

From Stdlib Require Import ZArith Reals Lra Lia Streams.
From stdpp Require Import base list gmap strings pretty.

Open Scope Z_scope.

(** ** Items ([src/items.py]) *)

Record Item := mkItem {
  item_name : string;
  item_type : string;
  effect_type : string;
  effect_value : Z;
  item_position : option (R * R)
}.

Definition set_item_position (it : Item) (p : option (R * R)) : Item :=
  mkItem (item_name it) (item_type it) (effect_type it) (effect_value it) p.

(** ** Agents ([src/pokemon_alos.py]) *)

Inductive Mood := normal | happy | angry | tired | excited.

Definition mood_eqb (m1 m2 : Mood) : bool :=
  match m1, m2 with
  | normal, normal | happy, happy | angry, angry
  | tired, tired | excited, excited => true
  | _, _ => false
  end.

Record PokemonALOs := mkPokemon {
  key : string;
  name : string;
  position : R * R;
  hp : Z;
  energy : Z;
  mood : Mood;
  current_abilities : list string;
  relationships : gmap string Z;
  inventory : list Item;
  max_inventory : Z
}.

Definition set_position (p : PokemonALOs) (xy : R * R) : PokemonALOs :=
  mkPokemon (key p) (name p) xy (hp p) (energy p) (mood p)
    (current_abilities p) (relationships p) (inventory p) (max_inventory p).
Definition set_hp (p : PokemonALOs) (v : Z) : PokemonALOs :=
  mkPokemon (key p) (name p) (position p) v (energy p) (mood p)
    (current_abilities p) (relationships p) (inventory p) (max_inventory p).
Definition set_energy (p : PokemonALOs) (v : Z) : PokemonALOs :=
  mkPokemon (key p) (name p) (position p) (hp p) v (mood p)
    (current_abilities p) (relationships p) (inventory p) (max_inventory p).
Definition set_mood (p : PokemonALOs) (m : Mood) : PokemonALOs :=
  mkPokemon (key p) (name p) (position p) (hp p) (energy p) m
    (current_abilities p) (relationships p) (inventory p) (max_inventory p).
Definition set_abilities (p : PokemonALOs) (l : list string) : PokemonALOs :=
  mkPokemon (key p) (name p) (position p) (hp p) (energy p) (mood p)
    l (relationships p) (inventory p) (max_inventory p).
Definition set_relationships (p : PokemonALOs) (r : gmap string Z) : PokemonALOs :=
  mkPokemon (key p) (name p) (position p) (hp p) (energy p) (mood p)
    (current_abilities p) r (inventory p) (max_inventory p).
Definition set_inventory (p : PokemonALOs) (l : list Item) : PokemonALOs :=
  mkPokemon (key p) (name p) (position p) (hp p) (energy p) (mood p)
    (current_abilities p) (relationships p) l (max_inventory p).

(** [update_position]: both axes clamped into [0, 10]. *)
Definition update_position (p : PokemonALOs) (dx dy : R) : PokemonALOs :=
  let (x, y) := position p in
  set_position p (Rmax 0 (Rmin 10 (x + dx)), Rmax 0 (Rmin 10 (y + dy)))%R.

Definition move_towards (p : PokemonALOs) (target_pos : R * R) (speed : R)
  : PokemonALOs :=
  let (x, y) := position p in
  let (tx, ty) := target_pos in
  let dx := (tx - x)%R in
  let dy := (ty - y)%R in
  let dist := sqrt (dx * dx + dy * dy) in
  if Rlt_dec 0 dist
  then update_position p (dx / dist * speed) (dy / dist * speed)
  else p.

Definition move_away (p : PokemonALOs) (target_pos : R * R) (speed : R)
  : PokemonALOs :=
  let (x, y) := position p in
  let (tx, ty) := target_pos in
  let dx := (x - tx)%R in
  let dy := (y - ty)%R in
  let dist := sqrt (dx * dx + dy * dy) in
  if Rlt_dec 0 dist
  then update_position p (dx / dist * speed) (dy / dist * speed)
  else p.

Definition distance_to (p other : PokemonALOs) : R :=
  let (x1, y1) := position p in
  let (x2, y2) := position other in
  sqrt ((x2 - x1) * (x2 - x1) + (y2 - y1) * (y2 - y1)).

Definition take_damage (p : PokemonALOs) (damage : Z) : PokemonALOs :=
  let p1 := set_hp p (Z.max 0 (hp p - damage)) in
  let p2 := set_energy p1 (Z.max 0 (energy p1 - 5)) in
  if hp p2 <? 30 then set_mood p2 tired
  else if hp p2 <? 60 then set_mood p2 angry
  else p2.

Definition heal (p : PokemonALOs) (amount : Z) : PokemonALOs :=
  let p1 := set_hp p (Z.min 100 (hp p + amount)) in
  if 70 <? hp p1 then set_mood p1 happy else p1.

Definition rest (p : PokemonALOs) : PokemonALOs :=
  let p1 := set_energy p (Z.min 100 (energy p + 10)) in
  let p2 := set_hp p1 (Z.min 100 (hp p1 + 3)) in
  if 80 <? energy p2 then set_mood p2 normal else p2.

Definition learn_move (p : PokemonALOs) (move_name : string) : PokemonALOs :=
  if bool_decide (move_name ∈ current_abilities p) then p
  else set_mood (set_abilities p (current_abilities p ++ [move_name])) excited.

Definition update_relationship (p : PokemonALOs) (other_key : string) (change : Z)
  : PokemonALOs :=
  let current := default 0 (relationships p !! other_key) in
  set_relationships p
    (<[other_key := Z.max (-100) (Z.min 100 (current + change))]> (relationships p)).

Definition get_relationship (p : PokemonALOs) (other_key : string) : Z :=
  default 0 (relationships p !! other_key).

Definition add_item (p : PokemonALOs) (it : Item) : bool * PokemonALOs :=
  if Z.of_nat (length (inventory p)) <? max_inventory p
  then (true, set_inventory p (inventory p ++ [it]))
  else (false, p).

(** [Item.use]: the effect of an item on the agent using it, with the
    message it returns. *)
Definition item_use (it : Item) (p : PokemonALOs) : string * PokemonALOs :=
  if String.eqb (effect_type it) "hp" then
    let old_hp := hp p in
    let p' := heal p (effect_value it) in
    (name p' +:+ "はHPが" +:+ pretty (hp p' - old_hp) +:+ "回復した！", p')
  else if String.eqb (effect_type it) "energy" then
    let old_energy := energy p in
    let p' := set_energy p (Z.min 100 (energy p + effect_value it)) in
    (name p' +:+ "はEnergyが" +:+ pretty (energy p' - old_energy) +:+ "回復した！", p')
  else if String.eqb (effect_type it) "mood" then
    match mood p with
    | angry | tired => (name p +:+ "の気分が良くなった！", set_mood p happy)
    | _ => (name p +:+ "は元気になった！", set_mood p excited)
    end
  else if String.eqb (effect_type it) "mixed" then
    let p1 := heal p (effect_value it `div` 2) in
    let p2 := set_energy p1 (Z.min 100 (energy p1 + effect_value it `div` 2)) in
    (name p2 +:+ "は元気を取り戻した！", p2)
  else (name p +:+ "は" +:+ item_name it +:+ "を使った", p).

(** [use_item]: pop the item at [item_index], then apply it. *)
Definition use_item (p : PokemonALOs) (item_index : nat)
  : option string * PokemonALOs :=
  match inventory p !! item_index with
  | Some it =>
      let p1 := set_inventory p (delete item_index (inventory p)) in
      let (msg, p2) := item_use it p1 in (Some msg, p2)
  | None => (None, p)
  end.

(** [for i, item in enumerate(self.inventory): if cond(item): return i] *)
Fixpoint find_index {A} (f : A -> bool) (l : list A) : option nat :=
  match l with
  | [] => None
  | x :: l' => if f x then Some 0%nat else S <$> find_index f l'
  end.

Definition is_hp_or_mixed (it : Item) : bool :=
  String.eqb (effect_type it) "hp" || String.eqb (effect_type it) "mixed".
Definition is_energy_or_mixed (it : Item) : bool :=
  String.eqb (effect_type it) "energy" || String.eqb (effect_type it) "mixed".
Definition is_mood (it : Item) : bool := String.eqb (effect_type it) "mood".

(** [auto_use_item]: three [if] blocks in sequence; a block whose loop finds
    no item falls through to the next block. *)
Definition auto_use_item (p : PokemonALOs) : option string * PokemonALOs :=
  let r1 := if hp p <=? 50 then find_index is_hp_or_mixed (inventory p) else None in
  match r1 with
  | Some i => use_item p i
  | None =>
    let r2 := if energy p <=? 30 then find_index is_energy_or_mixed (inventory p)
              else None in
    match r2 with
    | Some i => use_item p i
    | None =>
      let r3 := match mood p with
                | angry | tired => find_index is_mood (inventory p)
                | _ => None
                end in
      match r3 with
      | Some i => use_item p i
      | None => (None, p)
      end
    end
  end.

(** ** The engine state, the random source and the collaborators *)

(** An exception raised by a collaborator or by the Python runtime. *)
Definition exn := string.

Record Collab := mkCollab {
  (** [ALOsSystem.simulate_interaction(pokemons, scenario, context)] *)
  simulate_interaction : list PokemonALOs -> string -> list string -> exn + string;
  (** [PokemonRAG.query_context(query, n_results)] *)
  query_context : string -> Z -> exn + list string;
  (** [PokemonRAG.get_interaction_scenarios()] *)
  get_interaction_scenarios : exn + list string
}.

Record St := mkSt {
  pokemons : list PokemonALOs;
  items_on_field : list Item;
  event_log : list string;
  step_count : Z;
  rng : Stream R
}.

Definition set_pokemons (s : St) (l : list PokemonALOs) : St :=
  mkSt l (items_on_field s) (event_log s) (step_count s) (rng s).
Definition set_items_on_field (s : St) (l : list Item) : St :=
  mkSt (pokemons s) l (event_log s) (step_count s) (rng s).
Definition set_event_log (s : St) (l : list string) : St :=
  mkSt (pokemons s) (items_on_field s) l (step_count s) (rng s).
Definition set_step_count (s : St) (n : Z) : St :=
  mkSt (pokemons s) (items_on_field s) (event_log s) n (rng s).
Definition set_rng (s : St) (r : Stream R) : St :=
  mkSt (pokemons s) (items_on_field s) (event_log s) (step_count s) r.

(** State and exceptions: a raised exception keeps the mutations made
    before it, as Python's in-place updates do. *)
Definition M (A : Type) : Type := St -> (exn + A) * St.

Definition ret {A} (a : A) : M A := fun s => (inr a, s).
Definition bind {A B} (m : M A) (k : A -> M B) : M B :=
  fun s => match m s with
           | (inl e, s') => (inl e, s')
           | (inr a, s') => k a s'
           end.
Definition raise {A} (e : exn) : M A := fun s => (inl e, s).
(** [try: body except Exception: handler] *)
Definition try_except {A} (body : M A) (handler : exn -> M A) : M A :=
  fun s => match body s with
           | (inl e, s') => handler e s'
           | ok => ok
           end.
(** A call of a collaborator: its exception propagates. *)
Definition call {A} (r : exn + A) : M A :=
  match r with inl e => raise e | inr a => ret a end.

Notation "x <- m ;; k" := (bind m (fun x => k))
  (at level 100, m at next level, right associativity).
Notation "m ;;; k" := (bind m (fun _ => k))
  (at level 100, right associativity).

Definition gets {A} (f : St -> A) : M A := fun s => (inr (f s), s).
Definition modify_st (f : St -> St) : M unit := fun s => (inr tt, f s).

(** [self.pokemons] values, by position in [pokemon_list]. *)
Definition get_pk (i : nat) : M PokemonALOs :=
  fun s => match pokemons s !! i with
           | Some p => (inr p, s)
           | None => (inl "IndexError", s)
           end.
Definition put_pk (i : nat) (p : PokemonALOs) : M unit :=
  modify_st (fun s => set_pokemons s (<[i := p]> (pokemons s))).
Definition modify_pk (i : nat) (f : PokemonALOs -> PokemonALOs) : M unit :=
  p <- get_pk i ;; put_pk i (f p).

(** [random.random()]: one draw in [0, 1). *)
Definition random_ : M R :=
  fun s => (inr (Streams.hd (rng s)), set_rng s (Streams.tl (rng s))).

(** [random.uniform(a, b)] *)
Definition uniform (a b : R) : M R :=
  u <- random_ ;; ret (a + (b - a) * u)%R.

(** [random.randint(a, b)]: an integer of [a, b] picked by one draw. *)
Definition randint (a b : Z) : M Z :=
  u <- random_ ;;
  ret (a + Z.max 0 (Z.min (b - a) (Int_part (u * IZR (b - a + 1))))).

Definition rand_index (n : nat) : M nat :=
  u <- random_ ;;
  ret (Z.to_nat (Z.max 0 (Z.min (Z.of_nat n - 1) (Int_part (u * INR n))))).

(** [random.choice(seq)]: raises on an empty sequence. *)
Definition choice {A} (l : list A) : M A :=
  i <- rand_index (length l) ;;
  match l !! i with Some x => ret x | None => raise "IndexError" end.

(** [random.sample(population, k)]: [k] distinct elements in selection order. *)
Fixpoint sample {A} (l : list A) (k : nat) : M (list A) :=
  match k with
  | O => ret []
  | S k' =>
      i <- rand_index (length l) ;;
      match l !! i with
      | Some x => rest <- sample (delete i l) k' ;; ret (x :: rest)
      | None => raise "ValueError"
      end
  end.

(** ** The event log ([log_event], [get_recent_logs]) *)

Definition push_log (n : Z) (event : string) (log : list string) : list string :=
  let l := log ++ ["[Step " +:+ pretty n +:+ "] " +:+ event] in
  if (200 <? length l)%nat then drop 1 l else l.

Definition log_event (event : string) : M unit :=
  modify_st (fun s => set_event_log s (push_log (step_count s) event (event_log s))).

(** Python's [lst[k:]] with a possibly negative [k]. *)
Definition py_slice_from {A} (l : list A) (k : Z) : list A :=
  let len := Z.of_nat (length l) in
  let start := if k <? 0 then Z.max 0 (len + k) else Z.min k len in
  drop (Z.to_nat start) l.

Definition get_recent_logs (s : St) (n : Z) : list string :=
  py_slice_from (event_log s) (- n).

(** ** The item manager ([ItemManager] in [src/items.py]) *)

(** [BERRY_TYPES], in the dict's insertion order: name, type, effect type,
    effect value. *)
Definition BERRY_TYPES : list (string * string * string * Z) :=
  [("オレンのみ", "berry", "hp", 20);
   ("オボンのみ", "berry", "hp", 40);
   ("チーゴのみ", "berry", "energy", 30);
   ("モモンのみ", "berry", "mood", 1);
   ("ナナのみ", "berry", "mixed", 30);
   ("キーのみ", "berry", "energy", 50);
   ("ヒメリのみ", "berry", "hp", 15)].

Definition spawn_probability : R := (3 / 100)%R.
Definition max_items_on_field : nat := 5.
Definition field_size : R * R := (10, 10)%R.

Definition create_random_berry : M Item :=
  b <- choice BERRY_TYPES ;;
  let '(n, t, et, v) := b in ret (mkItem n t et v None).

Definition spawn_item : M (option Item) :=
  field <- gets items_on_field ;;
  if (max_items_on_field <=? length field)%nat then ret None else
  r <- random_ ;;
  if Rlt_dec r spawn_probability then
    item <- create_random_berry ;;
    x <- uniform (1 / 2) (fst field_size - 1 / 2) ;;
    y <- uniform (1 / 2) (snd field_size - 1 / 2) ;;
    let item' := set_item_position item (Some (x, y)) in
    modify_st (fun s => set_items_on_field s (items_on_field s ++ [item'])) ;;;
    ret (Some item')
  else ret None.

(** The test of one field item in [check_pickup]: [if item.position:] and
    then [distance < pickup_distance]. *)
Definition within_pickup (px py pickup_distance : R) (it : Item) : bool :=
  match item_position it with
  | Some (ix, iy) =>
      if Rlt_dec (sqrt ((px - ix) * (px - ix) + (py - iy) * (py - iy)))
                 pickup_distance
      then true else false
  | None => false
  end.

(** The loop of [check_pickup] over [items_on_field[:]]: the first item that
    passes the test is removed ([remove] finds that same object) and
    returned. *)
Fixpoint pickup_scan (px py pickup_distance : R) (l : list Item)
  : option Item * list Item :=
  match l with
  | [] => (None, [])
  | it :: l' =>
      if within_pickup px py pickup_distance it then (Some it, l')
      else let (r, l'') := pickup_scan px py pickup_distance l' in (r, it :: l'')
  end.

Definition check_pickup (p : PokemonALOs) (pickup_distance : R) (field : list Item)
  : option Item * list Item :=
  let (px, py) := position p in pickup_scan px py pickup_distance field.

(** ** The engine ([SimulationEngine] in [src/simulation_engine.py]) *)

Definition battle_probability : R := (15 / 100)%R.
Definition friendship_probability : R := (2 / 10)%R.
Definition learn_probability : R := (1 / 10)%R.
Definition random_event_probability : R := (1 / 10)%R.

(** Python's truthiness of an optional string. *)
Definition truthy (o : option string) : option string :=
  match o with
  | Some e => if String.eqb e "" then None else Some e
  | None => None
  end.

Definition simulate_battle (c : Collab) (i j : nat) : M string :=
  pokemon1 <- get_pk i ;; pokemon2 <- get_pk j ;;
  let query := name pokemon1 +:+ "と" +:+ name pokemon2 +:+ "のバトル" in
  context <- call (query_context c query 3) ;;
  let scenario := name pokemon1 +:+ "と" +:+ name pokemon2 +:+ "が戦っている" in
  try_except
    (result <- call (simulate_interaction c [pokemon1; pokemon2] scenario context) ;;
     damage1 <- randint 10 25 ;;
     damage2 <- randint 10 25 ;;
     modify_pk i (fun p => take_damage p damage2) ;;;
     modify_pk j (fun p => take_damage p damage1) ;;;
     modify_pk i (fun p => update_relationship p (key pokemon2) (-5)) ;;;
     modify_pk j (fun p => update_relationship p (key pokemon1) (-5)) ;;;
     log_event ("⚔️ " +:+ name pokemon1 +:+ " vs " +:+ name pokemon2 +:+ ": バトル発生！") ;;;
     log_event result ;;;
     ret ("Battle: " +:+ name pokemon1 +:+ " vs " +:+ name pokemon2))
    (fun _ =>
     log_event ("⚔️ " +:+ name pokemon1 +:+ "と" +:+ name pokemon2 +:+ "が戦った！") ;;;
     modify_pk i (fun p => take_damage p 15) ;;;
     modify_pk j (fun p => take_damage p 15) ;;;
     modify_pk i (fun p => update_relationship p (key pokemon2) (-5)) ;;;
     modify_pk j (fun p => update_relationship p (key pokemon1) (-5)) ;;;
     ret ("Battle: " +:+ name pokemon1 +:+ " vs " +:+ name pokemon2)).

Definition simulate_friendship (c : Collab) (i j : nat) : M string :=
  pokemon1 <- get_pk i ;; pokemon2 <- get_pk j ;;
  let query := name pokemon1 +:+ "と" +:+ name pokemon2 +:+ "の友情" in
  context <- call (query_context c query 3) ;;
  let scenario := name pokemon1 +:+ "と" +:+ name pokemon2 +:+ "が友好的に交流している" in
  try_except
    (result <- call (simulate_interaction c [pokemon1; pokemon2] scenario context) ;;
     modify_pk i (fun p => update_relationship p (key pokemon2) 10) ;;;
     modify_pk j (fun p => update_relationship p (key pokemon1) 10) ;;;
     modify_pk i (fun p => set_mood p happy) ;;;
     modify_pk j (fun p => set_mood p happy) ;;;
     modify_pk i (fun p => heal p 5) ;;;
     modify_pk j (fun p => heal p 5) ;;;
     log_event ("💚 " +:+ name pokemon1 +:+ "と" +:+ name pokemon2 +:+ "が仲良くなった！") ;;;
     log_event result ;;;
     ret ("Friendship: " +:+ name pokemon1 +:+ " & " +:+ name pokemon2))
    (fun _ =>
     log_event ("💚 " +:+ name pokemon1 +:+ "と" +:+ name pokemon2 +:+ "が交流した") ;;;
     modify_pk i (fun p => update_relationship p (key pokemon2) 10) ;;;
     modify_pk j (fun p => update_relationship p (key pokemon1) 10) ;;;
     ret ("Friendship: " +:+ name pokemon1 +:+ " & " +:+ name pokemon2)).

Definition handle_interaction (c : Collab) (i j : nat) : M (option string) :=
  pokemon1 <- get_pk i ;; pokemon2 <- get_pk j ;;
  let relationship1 := get_relationship pokemon1 (key pokemon2) in
  let relationship2 := get_relationship pokemon2 (key pokemon1) in
  if (relationship1 <? -30) || (relationship2 <? -30) then
    r <- random_ ;;
    if Rlt_dec r (battle_probability * 2) then
      e <- simulate_battle c i j ;; ret (Some e)
    else ret None
  else if (30 <? relationship1) || (30 <? relationship2) then
    r <- random_ ;;
    if Rlt_dec r (friendship_probability * 2) then
      e <- simulate_friendship c i j ;; ret (Some e)
    else ret None
  else
    r <- random_ ;;
    if Rlt_dec r battle_probability then
      e <- simulate_battle c i j ;; ret (Some e)
    else if Rlt_dec r (battle_probability + friendship_probability) then
      e <- simulate_friendship c i j ;; ret (Some e)
    else ret None.

Definition handle_awareness (i j : nat) : M unit :=
  pokemon1 <- get_pk i ;; pokemon2 <- get_pk j ;;
  let relationship := get_relationship pokemon1 (key pokemon2) in
  if relationship <? -30 then
    modify_pk i (fun p => move_towards p (position pokemon2) (2 / 10))
  else if 50 <? relationship then
    modify_pk i (fun p => move_towards p (position pokemon2) (15 / 100))
  else if mood_eqb (mood pokemon1) tired then
    modify_pk i (fun p => move_away p (position pokemon2) (1 / 10))
  else ret tt.

(** [potential_moves.get(pokemon.key, [])] in [_practice_move]. *)
Definition potential_moves (k : string) : list string :=
  if String.eqb k "pikachu" then ["ボルテッカー"; "エレキボール"; "なみのり"]
  else if String.eqb k "meowth" then ["つじぎり"; "イカサマ"; "アシストパワー"]
  else if String.eqb k "sprigatito" then ["エナジーボール"; "ソーラービーム"; "やどりぎのタネ"]
  else [].

Definition practice_move (i : nat) : M unit :=
  pokemon <- get_pk i ;;
  if (6 <=? length (current_abilities pokemon))%nat then ret tt else
  let new_moves := filter (fun m => m ∉ current_abilities pokemon)
                          (potential_moves (key pokemon)) in
  match new_moves with
  | [] => ret tt
  | _ :: _ =>
    r <- random_ ;;
    if Rlt_dec r (3 / 10) then
      new_move <- choice new_moves ;;
      modify_pk i (fun p => learn_move p new_move) ;;;
      log_event ("✨ " +:+ name pokemon +:+ "は" +:+ new_move +:+ "を覚えた！")
    else ret tt
  end.

Definition random_walk (i : nat) (speed : R) : M unit :=
  dx <- uniform (- speed) speed ;;
  dy <- uniform (- speed) speed ;;
  modify_pk i (fun p => update_position p dx dy).

Definition handle_individual_action (i : nat) : M unit :=
  pokemon <- get_pk i ;;
  if energy pokemon <? 30 then
    modify_pk i rest ;;;
    r <- random_ ;;
    if Rlt_dec r (1 / 10) then log_event (name pokemon +:+ "は休憩している...")
    else ret tt
  else if hp pokemon <? 40 then
    modify_pk i rest ;;;
    r <- random_ ;;
    if Rlt_dec r (15 / 100) then log_event (name pokemon +:+ "は傷を癒やしている...")
    else ret tt
  else
    random_walk i (15 / 100) ;;;
    r <- random_ ;;
    if Rlt_dec r learn_probability then practice_move i else ret tt.

Definition trigger_random_event (c : Collab) : M (option string) :=
  scenarios <- call (get_interaction_scenarios c) ;;
  match scenarios with
  | [] => ret None
  | _ :: _ =>
    scenario <- choice scenarios ;;
    log_event ("🎲 ランダムイベント: " +:+ scenario) ;;;
    n <- gets (fun s => length (pokemons s)) ;;
    selected <- sample (seq 0 n) (Nat.min 2 n) ;;
    match selected with
    | [a; b] =>
        target <- get_pk b ;;
        modify_pk a (fun p => move_towards p (position target) (1 / 2))
    | _ => ret tt
    end ;;;
    ret (Some ("Random Event: " +:+ scenario))
  end.

(** Sequencing a loop body over a list, collecting the events of each. *)
Fixpoint for_each {A} (l : list A) (f : A -> M (list string)) : M (list string) :=
  match l with
  | [] => ret []
  | x :: l' => e <- f x ;; es <- for_each l' f ;; ret (e ++ es)
  end.

(** One iteration of the pair loop of [step]: the distance is computed from
    the agents as they are when the pair is reached. *)
Definition pair_body (c : Collab) (i j : nat) : M (list string) :=
  pokemon1 <- get_pk i ;; pokemon2 <- get_pk j ;;
  let distance := distance_to pokemon1 pokemon2 in
  if Rlt_dec distance (3 / 2) then
    event <- handle_interaction c i j ;;
    match truthy event with Some e => ret [e] | None => ret [] end
  else if Rlt_dec distance 3 then
    handle_awareness i j ;;; ret []
  else ret [].

(** [for i, pokemon1 in enumerate(pokemon_list): for pokemon2 in
    pokemon_list[i+1:]: ...] *)
Definition pairwise_phase (c : Collab) (n : nat) : M (list string) :=
  for_each (seq 0 n) (fun i =>
    for_each (seq (S i) (n - S i)) (fun j => pair_body c i j)).

(** One iteration of the individual loop of [step]. *)
Definition individual_body (i : nat) : M (list string) :=
  handle_individual_action i ;;;
  pokemon <- get_pk i ;;
  field <- gets items_on_field ;;
  let (picked_item, field') := check_pickup pokemon (6 / 10) field in
  modify_st (fun s => set_items_on_field s field') ;;;
  match picked_item with
  | Some it =>
      pokemon <- get_pk i ;;
      let (added, pokemon') := add_item pokemon it in
      put_pk i pokemon' ;;;
      if added then
        log_event ("📦 " +:+ name pokemon +:+ "は" +:+ item_name it +:+ "を拾った！")
      else
        let (result, pokemon'') := item_use it pokemon' in
        put_pk i pokemon'' ;;;
        log_event ("💊 " +:+ result)
  | None => ret tt
  end ;;;
  pokemon <- get_pk i ;;
  let (auto_use_result, pokemon') := auto_use_item pokemon in
  put_pk i pokemon' ;;;
  match truthy auto_use_result with
  | Some r => log_event ("💊 " +:+ r)
  | None => ret tt
  end ;;;
  ret [].

Definition individual_phase (n : nat) : M (list string) :=
  for_each (seq 0 n) individual_body.

(** The snapshot returned by [step]. *)
Record Snapshot := mkSnapshot {
  snap_step : Z;
  snap_events : list string;
  snap_pokemons_state : list (string * PokemonALOs)
}.

Definition step (c : Collab) : M Snapshot :=
  modify_st (fun s => set_step_count s (step_count s + 1)) ;;;
  new_item <- spawn_item ;;
  match new_item with
  | Some it => log_event ("🍓 " +:+ item_name it +:+ "が出現した！")
  | None => ret tt
  end ;;;
  n <- gets (fun s => length (pokemons s)) ;;
  events1 <- pairwise_phase c n ;;
  individual_phase n ;;;
  r <- random_ ;;
  events2 <-
    (if Rlt_dec r random_event_probability then
       event <- trigger_random_event c ;;
       match truthy event with Some e => ret [e] | None => ret [] end
     else ret []) ;;
  s <- gets (fun s => s) ;;
  ret (mkSnapshot (step_count s) (events1 ++ events2)
         (map (fun p => (key p, p)) (pokemons s))).

(** ** Definitions that follow the spec's words, to compare with the code *)

(** The priority of [autoUseItem] read with a strict [else]: rule (2) only
    when [hp > 50], rule (3) only when also [energy > 30]. *)
Definition auto_use_item_strict_else (p : PokemonALOs) : option string * PokemonALOs :=
  if hp p <=? 50 then
    match find_index is_hp_or_mixed (inventory p) with
    | Some i => use_item p i | None => (None, p) end
  else if energy p <=? 30 then
    match find_index is_energy_or_mixed (inventory p) with
    | Some i => use_item p i | None => (None, p) end
  else match mood p with
       | angry | tired =>
           match find_index is_mood (inventory p) with
           | Some i => use_item p i | None => (None, p) end
       | _ => (None, p)
       end.

(** * Theorems *)

(** *** Small examples of the embedding *)

Definition pk_test (h e : Z) (m : Mood) (inv : list Item) : PokemonALOs :=
  mkPokemon "pikachu" "ピカチュウ" (1, 1)%R h e m [] ∅ inv 3.

Definition berry (et : string) (v : Z) : Item := mkItem "きのみ" "berry" et v None.

Example take_damage_example :
  let p := take_damage (pk_test 40 3 normal []) 15 in
  hp p = 25 /\ energy p = 0 /\ mood p = tired.
Proof. repeat split. Qed.

Example auto_use_item_example :
  inventory (snd (auto_use_item (pk_test 40 20 normal [berry "hp" 20; berry "energy" 30])))
  = [berry "energy" 30].
Proof. reflexivity. Qed.

Example get_recent_logs_example :
  get_recent_logs (mkSt [] [] ["a"; "b"; "c"] 0 (Streams.const 0%R)) 2 = ["b"; "c"] /\
  get_recent_logs (mkSt [] [] ["a"; "b"; "c"] 0 (Streams.const 0%R)) 0 = ["a"; "b"; "c"].
Proof. split; reflexivity. Qed.

(** *** C4: [take_damage] *)

(** C4. [takeDamage(amount)] sets hp to [max(0, hp - amount)] and energy to
    [max(0, energy - 5)]; the mood becomes tired when the new hp is below 30,
    else angry when it is below 60, else it is unchanged. *)
Theorem take_damage_spec (p : PokemonALOs) (amount : Z) :
  let new_hp := Z.max 0 (hp p - amount) in
  hp (take_damage p amount) = new_hp /\
  energy (take_damage p amount) = Z.max 0 (energy p - 5) /\
  mood (take_damage p amount) =
    (if new_hp <? 30 then tired else if new_hp <? 60 then angry else mood p).
Proof.
  cbn zeta. unfold take_damage. simpl.
  destruct (Z.max 0 (hp p - amount) <? 30); [repeat split|].
  destruct (Z.max 0 (hp p - amount) <? 60); repeat split.
Qed.

(** *** C9: [Item.use] with an unknown effect kind *)

(** C9. An item whose effect kind is none of hp, energy, mood, mixed leaves
    the agent unchanged and returns the non-empty message
    ["<name>は<item name>を使った"]. *)
Theorem item_use_unknown_kind (it : Item) (p : PokemonALOs)
  (Hkind : effect_type it ∉ ["hp"; "energy"; "mood"; "mixed"]) :
  snd (item_use it p) = p /\
  fst (item_use it p) = name p +:+ "は" +:+ item_name it +:+ "を使った" /\
  fst (item_use it p) <> "".
Proof.
  assert (Hne : forall k, k ∈ ["hp"; "energy"; "mood"; "mixed"] ->
                          String.eqb (effect_type it) k = false).
  { intros k Hk. apply String.eqb_neq. intros Heq. apply Hkind. by rewrite Heq. }
  unfold item_use.
  rewrite !Hne by set_solver.
  split; [reflexivity|]. split; [reflexivity|].
  simpl. destruct (name p); discriminate.
Qed.

Lemma item_use_unknown_kind_witness :
  (effect_type (berry "poison" 5) ∉ ["hp"; "energy"; "mood"; "mixed"]) /\
  snd (item_use (berry "poison" 5) (pk_test 50 50 normal [])) = pk_test 50 50 normal [] /\
  fst (item_use (berry "poison" 5) (pk_test 50 50 normal [])) =
    name (pk_test 50 50 normal []) +:+ "は" +:+ item_name (berry "poison" 5) +:+ "を使った" /\
  fst (item_use (berry "poison" 5) (pk_test 50 50 normal [])) <> "".
Proof.
  assert (H : effect_type (berry "poison" 5) ∉ ["hp"; "energy"; "mood"; "mixed"])
    by (simpl; set_solver).
  split; [exact H|]. apply (item_use_unknown_kind (berry "poison" 5) _ H).
Defined.

(** *** C10: [get_recent_logs] *)

(** C10. [get_recent_logs(n)] is the last [n] entries of the log in order
    (the whole log when it is shorter) for [n >= 1], and the whole log for
    [n = 0]. *)
Theorem get_recent_logs_spec (s : St) (n : Z) (Hn : 1 <= n) :
  get_recent_logs s n = drop (length (event_log s) - Z.to_nat n) (event_log s) /\
  get_recent_logs s 0 = event_log s.
Proof.
  unfold get_recent_logs, py_slice_from. split.
  - destruct (- n <? 0) eqn:E; [|lia]. f_equal. lia.
  - simpl. rewrite Z.min_l by lia. reflexivity.
Qed.

Lemma get_recent_logs_spec_witness :
  (1 <= 2)%Z /\
  get_recent_logs (mkSt [] [] ["a"; "b"; "c"] 0 (Streams.const 0%R)) 2 =
    drop (length ["a"; "b"; "c"] - Z.to_nat 2) ["a"; "b"; "c"] /\
  get_recent_logs (mkSt [] [] ["a"; "b"; "c"] 0 (Streams.const 0%R)) 0 = ["a"; "b"; "c"].
Proof.
  split; [lia|].
  exact (get_recent_logs_spec (mkSt [] [] ["a"; "b"; "c"] 0 (Streams.const 0%R)) 2
           ltac:(lia)).
Defined.

(** *** C8: [check_pickup] *)

(** An item lies strictly within [d] of the agent (Euclidean distance). *)
Definition in_pickup_range (p : PokemonALOs) (d : R) (it : Item) : Prop :=
  exists ix iy, item_position it = Some (ix, iy) /\
    (sqrt ((fst (position p) - ix) * (fst (position p) - ix) +
           (snd (position p) - iy) * (snd (position p) - iy)) < d)%R.

Lemma within_pickup_iff (p : PokemonALOs) (d : R) (it : Item) :
  within_pickup (fst (position p)) (snd (position p)) d it = true <->
  in_pickup_range p d it.
Proof.
  unfold within_pickup, in_pickup_range.
  destruct (item_position it) as [[ix iy]|]; split.
  - destruct (Rlt_dec _ d) as [Hlt|]; [|discriminate]. intros _. eauto.
  - intros (ix' & iy' & Heq & Hlt). injection Heq as <- <-.
    destruct (Rlt_dec _ d); [reflexivity|contradiction].
  - discriminate.
  - intros (? & ? & Heq & _). discriminate.
Qed.

Lemma pickup_scan_spec (px py d : R) (field : list Item) :
  match pickup_scan px py d field with
  | (Some it, field') => exists pre post, field = pre ++ it :: post /\
      field' = pre ++ post /\ within_pickup px py d it = true /\
      Forall (fun x => within_pickup px py d x = false) pre
  | (None, field') => field' = field /\
      Forall (fun x => within_pickup px py d x = false) field
  end.
Proof.
  induction field as [|it field IH]; simpl; [auto|].
  destruct (within_pickup px py d it) eqn:Ew.
  - exists [], field. auto.
  - destruct (pickup_scan px py d field) as [[it'|] field'].
    + destruct IH as (pre & post & -> & -> & Hin & Hpre).
      exists (it :: pre), post. simpl. auto.
    + destruct IH as [-> Hall]. auto.
Qed.

(** C8. [check_pickup] removes and returns the first field item, in
    insertion order, strictly within [pickup_distance] of the agent: every
    earlier item is out of range, exactly that item leaves the field; when
    no item is in range the field is unchanged and the result is absent. *)
Theorem check_pickup_first_in_range (p : PokemonALOs) (d : R) (field : list Item) :
  match check_pickup p d field with
  | (Some it, field') => exists pre post, field = pre ++ it :: post /\
      field' = pre ++ post /\ in_pickup_range p d it /\
      Forall (fun x => ~ in_pickup_range p d x) pre
  | (None, field') => field' = field /\
      Forall (fun x => ~ in_pickup_range p d x) field
  end.
Proof.
  unfold check_pickup. destruct (position p) as [px py] eqn:Epos.
  pose proof (pickup_scan_spec px py d field) as H.
  assert (Hiff : forall it, within_pickup px py d it = true <-> in_pickup_range p d it).
  { intros it. rewrite <- within_pickup_iff, Epos. reflexivity. }
  assert (Hnot : forall l, Forall (fun x => within_pickup px py d x = false) l ->
                           Forall (fun x => ~ in_pickup_range p d x) l).
  { intros l Hl. eapply Forall_impl; [exact Hl|].
    intros x Hx Hin. apply Hiff in Hin. congruence. }
  destruct (pickup_scan px py d field) as [[it|] field'].
  - destruct H as (pre & post & Hf & Hf' & Hin & Hpre).
    exists pre, post. split; [done|]. split; [done|].
    split; [by apply Hiff|]. by apply Hnot.
  - destruct H as [Hf Hall]. split; [done|]. by apply Hnot.
Qed.

(** *** C7: [auto_use_item] *)

Lemma find_index_spec {A} (f : A -> bool) (l : list A) :
  match find_index f l with
  | Some i => exists x, l !! i = Some x /\ f x = true /\
      forall j y, (j < i)%nat -> l !! j = Some y -> f y = false
  | None => forall y, y ∈ l -> f y = false
  end.
Proof.
  induction l as [|x l IH]; simpl.
  - intros y Hy. inversion Hy.
  - destruct (f x) eqn:Ef.
    + exists x. split; [done|]. split; [done|]. intros j y Hj. lia.
    + destruct (find_index f l) as [i|]; simpl.
      * destruct IH as (z & Hz & Hfz & Hfirst). exists z.
        split; [done|]. split; [done|].
        intros [|j] y Hj Hy; simpl in Hy; [congruence|].
        apply (Hfirst j); [lia|done].
      * intros y Hy. apply elem_of_cons in Hy as [->|Hy]; auto.
Qed.

(** [i] is the index of the first item of [l] of a kind accepted by [f]. *)
Definition first_of_kind (f : Item -> bool) (l : list Item) (i : nat) : Prop :=
  exists x, l !! i = Some x /\ f x = true /\
    forall j y, (j < i)%nat -> l !! j = Some y -> f y = false.

Definition none_of_kind (f : Item -> bool) (l : list Item) : Prop :=
  forall y, y ∈ l -> f y = false.

Lemma find_index_first (f : Item -> bool) (l : list Item) (i : nat) :
  first_of_kind f l i -> find_index f l = Some i.
Proof.
  intros (x & Hx & Hfx & Hfirst).
  pose proof (find_index_spec f l) as H.
  destruct (find_index f l) as [k|].
  - destruct H as (y & Hy & Hfy & Hk). f_equal.
    destruct (Nat.lt_trichotomy i k) as [Hlt|[Heq|Hlt]]; [|done|].
    + specialize (Hk i x Hlt Hx). congruence.
    + specialize (Hfirst k y Hlt Hy). congruence.
  - rewrite (H x) in Hfx; [discriminate|]. by eapply list_elem_of_lookup_2.
Qed.

Lemma find_index_none (f : Item -> bool) (l : list Item) :
  none_of_kind f l -> find_index f l = None.
Proof.
  intros Hnone. pose proof (find_index_spec f l) as H.
  destruct (find_index f l) as [k|]; [|done].
  destruct H as (y & Hy & Hfy & _).
  rewrite (Hnone y) in Hfy; [discriminate|]. by eapply list_elem_of_lookup_2.
Qed.

Lemma item_use_inventory (it : Item) (p : PokemonALOs) :
  inventory (snd (item_use it p)) = inventory p.
Proof.
  unfold item_use, heal.
  repeat (case_match; simpl; try reflexivity).
Qed.

Lemma use_item_removes_one (p : PokemonALOs) (i : nat) (it : Item) :
  inventory p !! i = Some it ->
  fst (use_item p i) <> None /\
  inventory (snd (use_item p i)) = delete i (inventory p).
Proof.
  intros Hi. unfold use_item. rewrite Hi.
  pose proof (item_use_inventory it (set_inventory p (delete i (inventory p)))) as H.
  destruct (item_use it _) as [msg p2]. simpl in *. split; [discriminate|exact H].
Qed.

(** The agent of the examples of C7: hp 40, energy 20, holding only an
    energy item. *)
Definition pk_energy_only : PokemonALOs := pk_test 40 20 normal [berry "energy" 30].

(** C7 (counterexample). With [hp <= 50] and no hp or mixed item, rule (1)
    does not end the call: rule (2) still fires and the energy item is used,
    where the strict reading of the priority ("else (2)") returns absent. *)
Lemma auto_use_item_falls_through :
  hp pk_energy_only <= 50 /\
  none_of_kind is_hp_or_mixed (inventory pk_energy_only) /\
  fst (auto_use_item pk_energy_only) <> None /\
  inventory (snd (auto_use_item pk_energy_only)) = [] /\
  fst (auto_use_item_strict_else pk_energy_only) = None.
Proof.
  split; [simpl; lia|]. split.
  { intros y Hy. apply list_elem_of_singleton in Hy as ->. reflexivity. }
  split; [simpl; discriminate|]. split; reflexivity.
Qed.

(** C7 (amended). [autoUseItem] tries rule (1) when [hp <= 50], then rule
    (2) when [energy <= 30], then rule (3) when the mood is angry or tired,
    each taking the first item of its kinds in inventory order; a rule whose
    condition holds but which finds no item falls through to the next rule.
    When no rule finds an item the result is absent and the agent unchanged;
    otherwise exactly the chosen item leaves the inventory. *)
Theorem auto_use_item_priority (p : PokemonALOs) :
  (forall i, hp p <= 50 -> first_of_kind is_hp_or_mixed (inventory p) i ->
     auto_use_item p = use_item p i) /\
  (forall i, (50 < hp p \/ none_of_kind is_hp_or_mixed (inventory p)) ->
     energy p <= 30 -> first_of_kind is_energy_or_mixed (inventory p) i ->
     auto_use_item p = use_item p i) /\
  (forall i, (50 < hp p \/ none_of_kind is_hp_or_mixed (inventory p)) ->
     (30 < energy p \/ none_of_kind is_energy_or_mixed (inventory p)) ->
     (mood p = angry \/ mood p = tired) ->
     first_of_kind is_mood (inventory p) i ->
     auto_use_item p = use_item p i) /\
  ((50 < hp p \/ none_of_kind is_hp_or_mixed (inventory p)) ->
   (30 < energy p \/ none_of_kind is_energy_or_mixed (inventory p)) ->
   ((mood p <> angry /\ mood p <> tired) \/ none_of_kind is_mood (inventory p)) ->
   auto_use_item p = (None, p)) /\
  (forall i it, inventory p !! i = Some it ->
     fst (use_item p i) <> None /\
     inventory (snd (use_item p i)) = delete i (inventory p)).
Proof.
  assert (R1 : (50 < hp p \/ none_of_kind is_hp_or_mixed (inventory p)) ->
               (if hp p <=? 50 then find_index is_hp_or_mixed (inventory p) else None)
               = None).
  { intros [H|H]; [rewrite (proj2 (Z.leb_gt _ _) H); reflexivity|].
    destruct (hp p <=? 50); [by apply find_index_none|reflexivity]. }
  assert (R2 : (30 < energy p \/ none_of_kind is_energy_or_mixed (inventory p)) ->
               (if energy p <=? 30
                then find_index is_energy_or_mixed (inventory p) else None) = None).
  { intros [H|H]; [rewrite (proj2 (Z.leb_gt _ _) H); reflexivity|].
    destruct (energy p <=? 30); [by apply find_index_none|reflexivity]. }
  unfold auto_use_item.
  split; [|split; [|split; [|split]]].
  - intros i H1 Hf. rewrite (proj2 (Z.leb_le _ _) H1), (find_index_first _ _ _ Hf).
    reflexivity.
  - intros i H1 H2 Hf. rewrite (R1 H1), (proj2 (Z.leb_le _ _) H2).
    rewrite (find_index_first _ _ _ Hf). reflexivity.
  - intros i H1 H2 H3 Hf. rewrite (R1 H1), (R2 H2).
    destruct H3 as [-> | ->]; rewrite (find_index_first _ _ _ Hf); reflexivity.
  - intros H1 H2 H3. rewrite (R1 H1), (R2 H2).
    destruct H3 as [[Ha Ht]|Hn].
    + destruct (mood p); congruence.
    + rewrite (find_index_none _ _ Hn). destruct (mood p); reflexivity.
  - intros i it Hi. by apply (use_item_removes_one p i it).
Qed.

(** *** Evaluating the engine's monadic code step by step *)

Lemma bind_get_pk {A} (i : nat) (k : PokemonALOs -> M A) (s : St) (p : PokemonALOs) :
  pokemons s !! i = Some p -> bind (get_pk i) k s = k p s.
Proof. intros H. cbv [bind get_pk]. by rewrite H. Qed.

Lemma bind_modify_pk {A} (i : nat) (f : PokemonALOs -> PokemonALOs) (k : unit -> M A)
  (s : St) (p : PokemonALOs) :
  pokemons s !! i = Some p ->
  bind (modify_pk i f) k s = k tt (set_pokemons s (<[i := f p]> (pokemons s))).
Proof. intros H. cbv [bind modify_pk get_pk put_pk modify_st]. by rewrite H. Qed.

Lemma bind_call_inr {A B} (a : A) (k : A -> M B) (s : St) :
  bind (call (inr a)) k s = k a s.
Proof. reflexivity. Qed.

Lemma bind_log_event {A} (e : string) (k : unit -> M A) (s : St) :
  bind (log_event e) k s =
  k tt (set_event_log s (push_log (step_count s) e (event_log s))).
Proof. reflexivity. Qed.

Lemma try_except_call_inl {A B} (e : exn) (k : A -> M B) (h : exn -> M B) (s : St) :
  try_except (bind (call (inl e)) k) h s = h e s.
Proof. reflexivity. Qed.

Lemma lookup_insert_same (l : list PokemonALOs) (i : nat) (p q : PokemonALOs) :
  l !! i = Some p -> <[i := q]> l !! i = Some q.
Proof. intros H. apply list_lookup_insert_eq. by eapply lookup_lt_Some. Qed.

(** Reading back an agent after a sequence of writes to the agent list. *)
Ltac lookup_tac :=
  simpl;
  repeat first [ eassumption
               | rewrite list_lookup_insert_ne by congruence
               | eapply lookup_insert_same ].

(** *** C5: the battle fallback *)

(** C5. With a narrator that always fails (and a context source that
    answers), a battle between two agents at hp 100 and mutual relationship
    0 ends with hp 85 and relationship -5 for each, one generic log line, and
    no other change of the state. *)
Theorem battle_fallback_determinism (c : Collab) (s : St) (i j : nat)
  (p1 p2 : PokemonALOs) (Hij : i <> j)
  (H1 : pokemons s !! i = Some p1) (H2 : pokemons s !! j = Some p2)
  (Hhp1 : hp p1 = 100) (Hhp2 : hp p2 = 100)
  (Hrel1 : get_relationship p1 (key p2) = 0) (Hrel2 : get_relationship p2 (key p1) = 0)
  (Hnarr : forall ps sc ctx, exists e, simulate_interaction c ps sc ctx = inl e)
  (Hctx : forall q k, exists l, query_context c q k = inr l) :
  let p1' := update_relationship (take_damage p1 15) (key p2) (-5) in
  let p2' := update_relationship (take_damage p2 15) (key p1) (-5) in
  simulate_battle c i j s =
    (inr ("Battle: " +:+ name p1 +:+ " vs " +:+ name p2),
     mkSt (<[j := p2']> (<[i := p1']> (pokemons s))) (items_on_field s)
       (push_log (step_count s)
          ("⚔️ " +:+ name p1 +:+ "と" +:+ name p2 +:+ "が戦った！") (event_log s))
       (step_count s) (rng s)) /\
  hp p1' = 85 /\ hp p2' = 85 /\
  get_relationship p1' (key p2) = -5 /\ get_relationship p2' (key p1) = -5.
Proof.
  cbn zeta. split.
  - unfold simulate_battle.
    rewrite (bind_get_pk _ _ _ _ H1). rewrite (bind_get_pk _ _ _ _ H2).
    destruct (Hctx (name p1 +:+ "と" +:+ name p2 +:+ "のバトル") 3) as [ctx Hc].
    rewrite Hc, bind_call_inr.
    destruct (Hnarr [p1; p2] (name p1 +:+ "と" +:+ name p2 +:+ "が戦っている") ctx)
      as [e He].
    rewrite He, try_except_call_inl, bind_log_event.
    rewrite (bind_modify_pk _ _ _ _ p1) by exact H1.
    rewrite (bind_modify_pk _ _ _ _ p2)
      by (simpl; rewrite list_lookup_insert_ne by congruence; exact H2).
    rewrite (bind_modify_pk _ _ _ _ (take_damage p1 15))
      by (simpl; rewrite list_lookup_insert_ne by congruence;
          exact (lookup_insert_same _ _ _ _ H1)).
    rewrite (bind_modify_pk _ _ _ _ (take_damage p2 15)).
    + simpl. unfold ret. f_equal. f_equal.
      rewrite (list_insert_insert_ne _ i j) by congruence.
      rewrite list_insert_insert_eq. rewrite list_insert_insert_eq. reflexivity.
    + simpl. rewrite list_lookup_insert_ne by congruence.
      eapply lookup_insert_same. rewrite list_lookup_insert_ne by congruence. exact H2.
  - unfold update_relationship, get_relationship, take_damage in *.
    rewrite Hhp1, Hhp2. simpl.
    rewrite !lookup_insert_eq. simpl.
    rewrite Hrel1, Hrel2. repeat split.
Qed.

(** Concrete inputs for the witnesses: two agents with full vitals and no
    relationships, and collaborators. *)
Definition pk_pikachu : PokemonALOs :=
  mkPokemon "pikachu" "ピカチュウ" (1, 1)%R 100 100 normal [] ∅ [] 3.
Definition pk_meowth : PokemonALOs :=
  mkPokemon "meowth" "ニャース" (2, 1)%R 100 100 normal [] ∅ [] 3.

Definition st_two : St :=
  mkSt [pk_pikachu; pk_meowth] [] [] 1 (Streams.const (1 / 2)%R).

Definition collab_failing_narrator : Collab :=
  mkCollab (fun _ _ _ => inl "APIError") (fun _ _ => inr []) (inr []).

Definition collab_ok : Collab :=
  mkCollab (fun _ _ _ => inr "narrative") (fun _ _ => inr []) (inr ["scenario"]).

Lemma battle_fallback_determinism_witness :
  let p1' := update_relationship (take_damage pk_pikachu 15) (key pk_meowth) (-5) in
  let p2' := update_relationship (take_damage pk_meowth 15) (key pk_pikachu) (-5) in
  simulate_battle collab_failing_narrator 0 1 st_two =
    (inr ("Battle: " +:+ name pk_pikachu +:+ " vs " +:+ name pk_meowth),
     mkSt (<[1%nat := p2']> (<[0%nat := p1']> (pokemons st_two))) (items_on_field st_two)
       (push_log (step_count st_two)
          ("⚔️ " +:+ name pk_pikachu +:+ "と" +:+ name pk_meowth +:+ "が戦った！")
          (event_log st_two))
       (step_count st_two) (rng st_two)) /\
  hp p1' = 85 /\ hp p2' = 85 /\
  get_relationship p1' (key pk_meowth) = -5 /\ get_relationship p2' (key pk_pikachu) = -5.
Proof.
  apply (battle_fallback_determinism collab_failing_narrator st_two 0 1
           pk_pikachu pk_meowth).
  - lia.
  - reflexivity.
  - reflexivity.
  - reflexivity.
  - reflexivity.
  - reflexivity.
  - reflexivity.
  - intros ps sc ctx. eexists. reflexivity.
  - intros q k. eexists. reflexivity.
Defined.

(** *** C6: the friendship success path *)

(** C6. With a narrator that succeeds (and a context source that answers),
    friendship resolution raises each agent's relationship toward the other
    by 10 (clamped to [-100, 100]), makes both moods happy and sets each hp to
    [min(100, hp + 5)]. *)
Theorem friendship_success (c : Collab) (s : St) (i j : nat)
  (p1 p2 : PokemonALOs) (Hij : i <> j)
  (H1 : pokemons s !! i = Some p1) (H2 : pokemons s !! j = Some p2)
  (Hnarr : forall ps sc ctx, exists r, simulate_interaction c ps sc ctx = inr r)
  (Hctx : forall q k, exists l, query_context c q k = inr l) :
  exists s' p1' p2',
    simulate_friendship c i j s =
      (inr ("Friendship: " +:+ name p1 +:+ " & " +:+ name p2), s') /\
    pokemons s' !! i = Some p1' /\ pokemons s' !! j = Some p2' /\
    get_relationship p1' (key p2) =
      Z.max (-100) (Z.min 100 (get_relationship p1 (key p2) + 10)) /\
    get_relationship p2' (key p1) =
      Z.max (-100) (Z.min 100 (get_relationship p2 (key p1) + 10)) /\
    mood p1' = happy /\ mood p2' = happy /\
    hp p1' = Z.min 100 (hp p1 + 5) /\ hp p2' = Z.min 100 (hp p2 + 5).
Proof.
  unfold simulate_friendship.
  rewrite (bind_get_pk _ _ _ _ H1). rewrite (bind_get_pk _ _ _ _ H2).
  destruct (Hctx (name p1 +:+ "と" +:+ name p2 +:+ "の友情") 3) as [ctx Hc].
  rewrite Hc, bind_call_inr.
  destruct (Hnarr [p1; p2] (name p1 +:+ "と" +:+ name p2 +:+ "が友好的に交流している") ctx)
    as [r Hr].
  unfold try_except. rewrite Hr, bind_call_inr.
  set (q1 := update_relationship p1 (key p2) 10).
  set (q2 := update_relationship p2 (key p1) 10).
  (* the six updates, each read back from the list it wrote *)
  rewrite (bind_modify_pk _ _ _ _ p1) by lookup_tac.
  rewrite (bind_modify_pk _ _ _ _ p2) by lookup_tac.
  rewrite (bind_modify_pk _ _ _ _ q1) by lookup_tac.
  rewrite (bind_modify_pk _ _ _ _ q2) by lookup_tac.
  rewrite (bind_modify_pk _ _ _ _ (set_mood q1 happy)) by lookup_tac.
  rewrite (bind_modify_pk _ _ _ _ (set_mood q2 happy)) by lookup_tac.
  simpl. eexists. exists (heal (set_mood q1 happy) 5), (heal (set_mood q2 happy) 5).
  split; [reflexivity|].
  split; [lookup_tac|]. split; [lookup_tac|].
  unfold heal, q1, q2, get_relationship, update_relationship. simpl.
  destruct (70 <? Z.min 100 (hp p1 + 5)), (70 <? Z.min 100 (hp p2 + 5));
    simpl; rewrite !lookup_insert_eq; simpl; repeat split.
Qed.

Lemma friendship_success_witness :
  exists s' p1' p2',
    simulate_friendship collab_ok 0 1 st_two =
      (inr ("Friendship: " +:+ name pk_pikachu +:+ " & " +:+ name pk_meowth), s') /\
    pokemons s' !! 0%nat = Some p1' /\ pokemons s' !! 1%nat = Some p2' /\
    get_relationship p1' (key pk_meowth) =
      Z.max (-100) (Z.min 100 (get_relationship pk_pikachu (key pk_meowth) + 10)) /\
    get_relationship p2' (key pk_pikachu) =
      Z.max (-100) (Z.min 100 (get_relationship pk_meowth (key pk_pikachu) + 10)) /\
    mood p1' = happy /\ mood p2' = happy /\
    hp p1' = Z.min 100 (hp pk_pikachu + 5) /\ hp p2' = Z.min 100 (hp pk_meowth + 5).
Proof.
  apply (friendship_success collab_ok st_two 0 1 pk_pikachu pk_meowth).
  - lia.
  - reflexivity.
  - reflexivity.
  - intros ps sc ctx. eexists. reflexivity.
  - intros q k. eexists. reflexivity.
Defined.

(** *** C3: vitals stay in [0, 100] *)

Definition vitals_ok (p : PokemonALOs) : Prop :=
  0 <= hp p <= 100 /\ 0 <= energy p <= 100.

(** Effect magnitudes are non-negative (the catalog's are). *)
Definition item_ok (it : Item) : Prop := 0 <= effect_value it.

Definition pokemon_ok (p : PokemonALOs) : Prop :=
  vitals_ok p /\ Forall item_ok (inventory p).

Definition state_ok (s : St) : Prop :=
  Forall pokemon_ok (pokemons s) /\ Forall item_ok (items_on_field s).

(** [m] keeps [state_ok], also when it raises, and its result satisfies [Q]. *)
Definition safe {A} (m : M A) (Q : A -> Prop) : Prop :=
  forall s, state_ok s -> state_ok (snd (m s)) /\ forall a, fst (m s) = inr a -> Q a.

Create HintDb safe_db.

Lemma safe_ret {A} (a : A) (Q : A -> Prop) : Q a -> safe (ret a) Q.
Proof. intros HQ s Hs. split; [done|]. intros a' [= <-]. done. Qed.

Lemma safe_bind {A B} (m : M A) (k : A -> M B) (R : A -> Prop) (Q : B -> Prop) :
  safe m R -> (forall a, R a -> safe (k a) Q) -> safe (bind m k) Q.
Proof.
  intros Hm Hk s Hs. unfold bind.
  destruct (Hm s Hs) as [Hs' HR]. destruct (m s) as [[e|a] s'].
  - split; [done|]. intros ? [=].
  - apply Hk; [by apply HR|done].
Qed.

Lemma safe_raise {A} (e : exn) (Q : A -> Prop) : safe (raise e) Q.
Proof. intros s Hs. split; [done|]. intros ? [=]. Qed.

Lemma safe_call {A} (r : exn + A) : safe (call r) (fun _ => True).
Proof. destruct r; [apply safe_raise|by apply safe_ret]. Qed.

Lemma safe_try {A} (body : M A) (h : exn -> M A) (Q : A -> Prop) :
  safe body Q -> (forall e, safe (h e) Q) -> safe (try_except body h) Q.
Proof.
  intros Hb Hh s Hs. unfold try_except.
  destruct (Hb s Hs) as [Hs' HQ]. destruct (body s) as [[e|a] s'].
  - by apply Hh.
  - split; [done|]. intros a' [= <-]. by apply HQ.
Qed.

Lemma safe_get_pk (i : nat) : safe (get_pk i) pokemon_ok.
Proof.
  intros s Hs. unfold get_pk. destruct (pokemons s !! i) eqn:E; simpl.
  - split; [done|]. intros a [= <-].
    destruct Hs as [Hp _]. eapply Forall_lookup_1; [exact Hp|exact E].
  - split; [done|]. intros ? [=].
Qed.

Lemma safe_put_pk (i : nat) (p : PokemonALOs) :
  pokemon_ok p -> safe (put_pk i p) (fun _ => True).
Proof.
  intros Hp s [Hps Hit]. split; [|done]. split; [|done]. simpl.
  by apply Forall_insert.
Qed.

Lemma safe_modify_pk (i : nat) (f : PokemonALOs -> PokemonALOs) :
  (forall p, pokemon_ok p -> pokemon_ok (f p)) -> safe (modify_pk i f) (fun _ => True).
Proof.
  intros Hf. eapply safe_bind; [apply safe_get_pk|]. intros p Hp.
  apply safe_put_pk. by apply Hf.
Qed.

Lemma safe_gets_true {A} (f : St -> A) : safe (gets f) (fun _ => True).
Proof. intros s Hs. split; [done|]. intros; done. Qed.

Lemma safe_gets_field : safe (gets items_on_field) (Forall item_ok).
Proof. intros s Hs. split; [done|]. intros a [= <-]. apply Hs. Qed.

Lemma safe_set_field (l : list Item) :
  Forall item_ok l -> safe (modify_st (fun s => set_items_on_field s l)) (fun _ => True).
Proof. intros Hl s [Hp _]. split; [|done]. split; done. Qed.

Lemma safe_random : safe random_ (fun _ => True).
Proof. intros s Hs. split; [apply Hs|done]. Qed.

Lemma safe_uniform (a b : R) : safe (uniform a b) (fun _ => True).
Proof. eapply safe_bind; [apply safe_random|]. intros. by apply safe_ret. Qed.

Lemma safe_randint (a b : Z) : a <= b -> safe (randint a b) (fun z => a <= z).
Proof.
  intros Hab. eapply safe_bind; [apply safe_random|]. intros. apply safe_ret. lia.
Qed.

Lemma safe_rand_index (n : nat) : safe (rand_index n) (fun _ => True).
Proof. eapply safe_bind; [apply safe_random|]. intros. by apply safe_ret. Qed.

Lemma safe_choice {A} (l : list A) : safe (choice l) (fun x => x ∈ l).
Proof.
  eapply safe_bind; [apply safe_rand_index|]. intros i _.
  destruct (l !! i) eqn:E; [apply safe_ret|apply safe_raise].
  by eapply list_elem_of_lookup_2.
Qed.

Lemma safe_sample {A} (l : list A) (k : nat) : safe (sample l k) (fun _ => True).
Proof.
  revert l. induction k as [|k IH]; intros l; simpl; [by apply safe_ret|].
  eapply safe_bind; [apply safe_rand_index|]. intros i _.
  destruct (l !! i); [|apply safe_raise].
  eapply safe_bind; [apply IH|]. intros. by apply safe_ret.
Qed.

Lemma safe_log_event (e : string) : safe (log_event e) (fun _ => True).
Proof. intros s Hs. split; [apply Hs|done]. Qed.

#[export] Hint Resolve safe_get_pk safe_put_pk safe_modify_pk safe_gets_true
  safe_gets_field safe_set_field safe_random safe_uniform safe_randint
  safe_rand_index safe_choice safe_sample safe_log_event safe_call : safe_db.
#[export] Hint Extern 1 (_ <= _) => lia : safe_db.

(** Each agent mutator keeps the vitals in range. *)

Ltac pk_ok_tac :=
  repeat match goal with
         | H : pokemon_ok _ |- _ => destruct H as [[? ?] ?]
         | |- pokemon_ok _ => split
         | |- vitals_ok _ => split
         | |- context [if ?b then _ else _] => destruct b
         | |- _ /\ _ => split
         end; simpl in *; try lia; try assumption.

Lemma take_damage_ok (p : PokemonALOs) (d : Z) :
  0 <= d -> pokemon_ok p -> pokemon_ok (take_damage p d).
Proof. intros Hd Hp. unfold take_damage. pk_ok_tac. Qed.

Lemma heal_ok (p : PokemonALOs) (a : Z) :
  0 <= a -> pokemon_ok p -> pokemon_ok (heal p a).
Proof. intros Ha Hp. unfold heal. pk_ok_tac. Qed.

Lemma rest_ok (p : PokemonALOs) : pokemon_ok p -> pokemon_ok (rest p).
Proof. intros Hp. unfold rest. pk_ok_tac. Qed.

Lemma set_mood_ok (p : PokemonALOs) (m : Mood) : pokemon_ok p -> pokemon_ok (set_mood p m).
Proof. intros Hp. pk_ok_tac. Qed.

Lemma update_relationship_ok (p : PokemonALOs) (k : string) (ch : Z) :
  pokemon_ok p -> pokemon_ok (update_relationship p k ch).
Proof. intros Hp. unfold update_relationship. pk_ok_tac. Qed.

Lemma update_position_ok (p : PokemonALOs) (dx dy : R) :
  pokemon_ok p -> pokemon_ok (update_position p dx dy).
Proof. intros Hp. unfold update_position. destruct (position p). pk_ok_tac. Qed.

Lemma move_towards_ok (p : PokemonALOs) (t : R * R) (sp : R) :
  pokemon_ok p -> pokemon_ok (move_towards p t sp).
Proof.
  intros Hp. unfold move_towards. destruct (position p), t.
  destruct (Rlt_dec _ _); [by apply update_position_ok|done].
Qed.

Lemma move_away_ok (p : PokemonALOs) (t : R * R) (sp : R) :
  pokemon_ok p -> pokemon_ok (move_away p t sp).
Proof.
  intros Hp. unfold move_away. destruct (position p), t.
  destruct (Rlt_dec _ _); [by apply update_position_ok|done].
Qed.

Lemma learn_move_ok (p : PokemonALOs) (m : string) :
  pokemon_ok p -> pokemon_ok (learn_move p m).
Proof. intros Hp. unfold learn_move. case_decide; [done|]. pk_ok_tac. Qed.

Lemma item_use_ok (it : Item) (p : PokemonALOs) :
  item_ok it -> pokemon_ok p -> pokemon_ok (snd (item_use it p)).
Proof.
  intros Hit Hp. unfold item_use, item_ok in *.
  destruct (String.eqb _ "hp"); [simpl; by apply heal_ok|].
  destruct (String.eqb _ "energy"); [pk_ok_tac|].
  destruct (String.eqb _ "mood"); [destruct (mood p); pk_ok_tac|].
  destruct (String.eqb _ "mixed"); [|done].
  assert (0 <= effect_value it `div` 2) by (apply Z.div_pos; lia).
  pose proof (heal_ok p (effect_value it `div` 2) H Hp). pk_ok_tac.
Qed.

Lemma add_item_ok (p : PokemonALOs) (it : Item) :
  item_ok it -> pokemon_ok p -> pokemon_ok (snd (add_item p it)).
Proof.
  intros Hit Hp. unfold add_item.
  destruct (_ <? _); [|done]. pk_ok_tac. apply Forall_app. split; [done|]. by constructor.
Qed.

Lemma use_item_ok (p : PokemonALOs) (i : nat) :
  pokemon_ok p -> pokemon_ok (snd (use_item p i)).
Proof.
  intros Hp. unfold use_item. destruct (inventory p !! i) as [it|] eqn:E; [|done].
  assert (Hit : item_ok it) by (eapply Forall_lookup_1; [apply Hp|exact E]).
  assert (Hp1 : pokemon_ok (set_inventory p (delete i (inventory p)))).
  { destruct Hp as [Hv Hinv]. split; [exact Hv|]. simpl. by apply Forall_delete. }
  pose proof (item_use_ok it _ Hit Hp1) as H.
  destruct (item_use it _). exact H.
Qed.

Lemma auto_use_item_ok (p : PokemonALOs) :
  pokemon_ok p -> pokemon_ok (snd (auto_use_item p)).
Proof.
  intros Hp. unfold auto_use_item.
  repeat (case_match; try (by apply use_item_ok)); done.
Qed.

#[export] Hint Resolve take_damage_ok heal_ok rest_ok set_mood_ok update_relationship_ok
  update_position_ok move_towards_ok move_away_ok learn_move_ok : safe_db.

(** Walking through monadic code with the [safe] rules. *)
Ltac safe_tac :=
  repeat match goal with
  | |- safe (ret _) _ => apply safe_ret; try done
  | |- safe (raise _) _ => apply safe_raise
  | |- safe (try_except _ _) _ => apply safe_try; [|intros ?]
  | |- safe (bind _ _) _ =>
      first [ eapply safe_bind;
              [solve [eauto with safe_db] | let H := fresh "H" in intros ? H; cbv beta in H]
            | apply (safe_bind _ _ (fun _ => True)); [ | intros ? _ ] ]
  | |- safe (if ?b then _ else _) _ => destruct b
  | |- safe (match ?x with _ => _ end) _ => destruct x
  | |- safe _ _ => solve [eauto with safe_db]
  end.

Lemma safe_simulate_battle (c : Collab) (i j : nat) :
  safe (simulate_battle c i j) (fun _ => True).
Proof. unfold simulate_battle. safe_tac. Qed.

Lemma safe_simulate_friendship (c : Collab) (i j : nat) :
  safe (simulate_friendship c i j) (fun _ => True).
Proof. unfold simulate_friendship. safe_tac. Qed.

#[export] Hint Resolve safe_simulate_battle safe_simulate_friendship : safe_db.

Lemma safe_handle_interaction (c : Collab) (i j : nat) :
  safe (handle_interaction c i j) (fun _ => True).
Proof. unfold handle_interaction. safe_tac. Qed.

Lemma safe_handle_awareness (i j : nat) : safe (handle_awareness i j) (fun _ => True).
Proof. unfold handle_awareness. safe_tac. Qed.

Lemma safe_practice_move (i : nat) : safe (practice_move i) (fun _ => True).
Proof. unfold practice_move. safe_tac. Qed.

Lemma safe_random_walk (i : nat) (sp : R) : safe (random_walk i sp) (fun _ => True).
Proof. unfold random_walk. safe_tac. Qed.

#[export] Hint Resolve safe_handle_interaction safe_handle_awareness safe_practice_move
  safe_random_walk : safe_db.

Lemma safe_handle_individual_action (i : nat) :
  safe (handle_individual_action i) (fun _ => True).
Proof. unfold handle_individual_action. safe_tac. Qed.

Lemma safe_trigger_random_event (c : Collab) :
  safe (trigger_random_event c) (fun _ => True).
Proof. unfold trigger_random_event. safe_tac. Qed.

Lemma safe_pair_body (c : Collab) (i j : nat) : safe (pair_body c i j) (fun _ => True).
Proof. unfold pair_body. safe_tac. Qed.

Lemma safe_for_each {A} (l : list A) (f : A -> M (list string)) :
  (forall x, safe (f x) (fun _ => True)) -> safe (for_each l f) (fun _ => True).
Proof.
  intros Hf. induction l as [|x l IH]; simpl; [by apply safe_ret|].
  eapply safe_bind; [apply Hf|]. intros e _.
  eapply safe_bind; [apply IH|]. intros. by apply safe_ret.
Qed.

Lemma safe_pairwise_phase (c : Collab) (n : nat) :
  safe (pairwise_phase c n) (fun _ => True).
Proof.
  unfold pairwise_phase. apply safe_for_each. intros i.
  apply safe_for_each. intros j. apply safe_pair_body.
Qed.

Lemma safe_create_random_berry : safe create_random_berry item_ok.
Proof.
  unfold create_random_berry. eapply safe_bind; [apply safe_choice|].
  intros [[[n t] et] v] Hb. apply safe_ret. unfold item_ok. simpl.
  unfold BERRY_TYPES in Hb.
  repeat (apply elem_of_cons in Hb as [Hb|Hb]; [injection Hb; intros; subst; lia|]).
  by apply elem_of_nil in Hb.
Qed.

Lemma safe_append_field (it : Item) :
  item_ok it ->
  safe (modify_st (fun s => set_items_on_field s (items_on_field s ++ [it])))
       (fun _ => True).
Proof.
  intros Hit s [Hp Hf]. split; [|done]. split; [done|]. simpl.
  apply Forall_app. split; [done|]. by constructor.
Qed.

Lemma safe_spawn_item : safe spawn_item (fun _ => True).
Proof.
  unfold spawn_item.
  eapply safe_bind; [apply safe_gets_field|]. intros field _.
  destruct (_ <=? _)%nat; [by apply safe_ret|].
  eapply safe_bind; [apply safe_random|]. intros r _.
  destruct (Rlt_dec _ _); [|by apply safe_ret].
  eapply safe_bind; [apply safe_create_random_berry|]. intros item Hitem.
  eapply safe_bind; [apply safe_uniform|]. intros x _.
  eapply safe_bind; [apply safe_uniform|]. intros y _.
  eapply safe_bind; [apply safe_append_field; exact Hitem|]. intros _ _.
  by apply safe_ret.
Qed.

Lemma check_pickup_ok (p : PokemonALOs) (d : R) (field field' : list Item)
  (o : option Item) :
  Forall item_ok field -> check_pickup p d field = (o, field') ->
  Forall item_ok field' /\ (forall it, o = Some it -> item_ok it).
Proof.
  intros Hf Ec. unfold check_pickup in Ec. destruct (position p) as [px py].
  pose proof (pickup_scan_spec px py d field) as H. rewrite Ec in H.
  destruct o as [it|].
  - destruct H as (pre & post & -> & -> & _ & _).
    apply Forall_app in Hf as [Hpre Hpost]. inversion Hpost; subst.
    split; [by apply Forall_app|]. intros ? [= <-]. done.
  - destruct H as [-> _]. split; [done|]. intros ? [=].
Qed.

Lemma safe_individual_body (i : nat) : safe (individual_body i) (fun _ => True).
Proof.
  unfold individual_body.
  eapply safe_bind; [apply safe_handle_individual_action|]. intros _ _.
  eapply safe_bind; [apply safe_get_pk|]. intros pokemon Hp.
  eapply safe_bind; [apply safe_gets_field|]. intros field Hf.
  destruct (check_pickup pokemon (6 / 10) field) as [picked field'] eqn:Ec.
  apply check_pickup_ok in Ec as [Hf' Hpicked]; [|exact Hf].
  eapply safe_bind; [apply safe_set_field; exact Hf'|]. intros _ _.
  apply (safe_bind _ _ (fun _ => True)).
  { destruct picked as [it|]; [|by apply safe_ret].
    specialize (Hpicked it eq_refl).
    eapply safe_bind; [apply safe_get_pk|]. intros p2 Hp2.
    pose proof (add_item_ok p2 it Hpicked Hp2) as Hadd.
    destruct (add_item p2 it) as [added p3].
    eapply safe_bind; [apply safe_put_pk; exact Hadd|]. intros _ _.
    destruct added; [apply safe_log_event|].
    pose proof (item_use_ok it p3 Hpicked Hadd) as Huse.
    destruct (item_use it p3) as [res p4].
    eapply safe_bind; [apply safe_put_pk; exact Huse|]. intros _ _.
    apply safe_log_event. }
  intros _ _.
  eapply safe_bind; [apply safe_get_pk|]. intros p5 Hp5.
  pose proof (auto_use_item_ok p5 Hp5) as Hau.
  destruct (auto_use_item p5) as [r p6].
  eapply safe_bind; [apply safe_put_pk; exact Hau|]. intros _ _.
  apply (safe_bind _ _ (fun _ => True)).
  - destruct (truthy r); [apply safe_log_event|by apply safe_ret].
  - intros. by apply safe_ret.
Qed.

Lemma safe_individual_phase (n : nat) : safe (individual_phase n) (fun _ => True).
Proof. apply safe_for_each. apply safe_individual_body. Qed.

Lemma safe_bump_step_count :
  safe (modify_st (fun s => set_step_count s (step_count s + 1))) (fun _ => True).
Proof. intros s Hs. split; [exact Hs|done]. Qed.

#[export] Hint Resolve safe_spawn_item safe_pairwise_phase safe_individual_phase
  safe_trigger_random_event safe_bump_step_count : safe_db.

Lemma safe_step (c : Collab) : safe (step c) (fun _ => True).
Proof. unfold step. safe_tac. Qed.

Ltac vitals_tac :=
  repeat match goal with
         | H : vitals_ok _ |- _ => destruct H
         | |- vitals_ok _ => split
         | |- context [if ?b then _ else _] => destruct b
         | |- _ /\ _ => split
         end; simpl in *; lia.

(** C3. [0 <= hp <= 100] and [0 <= energy <= 100] hold for every agent after
    every [step()] (also one that ends in a raised exception, whose earlier
    in-place updates remain), and after each single mutation: [take_damage],
    [heal], [rest] and the use of an item, for the non-negative amounts and
    effect values of the data model. *)
Theorem vitals_stay_in_range (c : Collab) (s : St) (p : PokemonALOs) (d a : Z) (it : Item)
  (Hs : state_ok s) (Hp : vitals_ok p) (Hd : 0 <= d) (Ha : 0 <= a) (Hit : item_ok it) :
  Forall vitals_ok (pokemons (snd (step c s))) /\
  state_ok (snd (step c s)) /\
  vitals_ok (take_damage p d) /\ vitals_ok (heal p a) /\ vitals_ok (rest p) /\
  vitals_ok (snd (item_use it p)).
Proof.
  destruct (safe_step c s Hs) as [Hs' _].
  split; [|split; [exact Hs'|]].
  { destruct Hs' as [Hps _]. eapply Forall_impl; [exact Hps|]. intros q [Hq _]. exact Hq. }
  split; [unfold take_damage; vitals_tac|].
  split; [unfold heal; vitals_tac|].
  split; [unfold rest; vitals_tac|].
  unfold item_use, item_ok in *.
  destruct (String.eqb _ "hp"); [simpl; unfold heal; vitals_tac|].
  destruct (String.eqb _ "energy"); [vitals_tac|].
  destruct (String.eqb _ "mood"); [destruct (mood p); vitals_tac|].
  destruct (String.eqb _ "mixed"); [|simpl; vitals_tac].
  assert (0 <= effect_value it `div` 2) by (apply Z.div_pos; lia).
  unfold heal. vitals_tac.
Qed.

Lemma vitals_stay_in_range_witness :
  Forall vitals_ok (pokemons (snd (step collab_ok st_two))) /\
  state_ok (snd (step collab_ok st_two)) /\
  vitals_ok (take_damage pk_pikachu 15) /\ vitals_ok (heal pk_pikachu 5) /\
  vitals_ok (rest pk_pikachu) /\ vitals_ok (snd (item_use (berry "mixed" 30) pk_pikachu)).
Proof.
  apply (vitals_stay_in_range collab_ok st_two pk_pikachu 15 5 (berry "mixed" 30)).
  - split; [|constructor].
    repeat constructor; simpl; lia.
  - split; simpl; lia.
  - lia.
  - lia.
  - unfold item_ok. simpl. lia.
Defined.


(** ** Runs of [step] that do not raise *)

(** The context source answers every query and lists its scenarios. *)
Definition context_source_ok (c : Collab) : Prop :=
  (forall q k, exists r, query_context c q k = inr r) /\
  (exists l, get_interaction_scenarios c = inr l).

(** [m], run on a state with [n] agents, keeps [n] agents (also when it
    raises) and, when it returns, returns a value satisfying [Q]. *)
Definition keeps {A} (n : nat) (m : M A) (Q : A -> Prop) : Prop :=
  forall s, length (pokemons s) = n ->
    length (pokemons (snd (m s))) = n /\ forall a, fst (m s) = inr a -> Q a.

(** [m], run on a state with [n] agents, keeps [n] agents and returns. *)
Definition runs {A} (n : nat) (m : M A) (Q : A -> Prop) : Prop :=
  forall s, length (pokemons s) = n ->
    length (pokemons (snd (m s))) = n /\ exists a, fst (m s) = inr a /\ Q a.

Create HintDb runs_db.

Section Runs.
Variable n : nat.

Lemma runs_keeps {A} (m : M A) (Q : A -> Prop) : runs n m Q -> keeps n m Q.
Proof.
  intros Hm s Hs. destruct (Hm s Hs) as [Hl (a & Ha & HQ)].
  split; [done|]. intros a' Ha'. rewrite Ha in Ha'. by injection Ha' as <-.
Qed.

Lemma runs_ret {A} (a : A) (Q : A -> Prop) : Q a -> runs n (ret a) Q.
Proof. intros HQ s Hs. split; [done|]. by exists a. Qed.

Lemma runs_bind {A B} (m : M A) (k : A -> M B) (P : A -> Prop) (Q : B -> Prop) :
  runs n m P -> (forall a, P a -> runs n (k a) Q) -> runs n (bind m k) Q.
Proof.
  intros Hm Hk s Hs. unfold bind.
  destruct (Hm s Hs) as [Hl (a & Ha & HP)]. destruct (m s) as [[e|a'] s'].
  - discriminate Ha.
  - injection Ha as ->. by apply Hk.
Qed.

Lemma keeps_ret {A} (a : A) (Q : A -> Prop) : Q a -> keeps n (ret a) Q.
Proof. intros HQ. by apply runs_keeps, runs_ret. Qed.

Lemma keeps_bind {A B} (m : M A) (k : A -> M B) (P : A -> Prop) (Q : B -> Prop) :
  keeps n m P -> (forall a, P a -> keeps n (k a) Q) -> keeps n (bind m k) Q.
Proof.
  intros Hm Hk s Hs. unfold bind.
  destruct (Hm s Hs) as [Hl HP]. destruct (m s) as [[e|a] s'].
  - split; [done|]. intros ? [=].
  - apply Hk; [by apply HP|done].
Qed.

Lemma keeps_call {A} (r : exn + A) : keeps n (call r) (fun _ => True).
Proof. intros s Hs. destruct r; simpl; split; done. Qed.

(** A [try] whose handler returns returns, whatever its body does. *)
Lemma runs_try {A} (body : M A) (h : exn -> M A) (Q : A -> Prop) :
  keeps n body Q -> (forall e, runs n (h e) Q) -> runs n (try_except body h) Q.
Proof.
  intros Hb Hh s Hs. unfold try_except.
  destruct (Hb s Hs) as [Hl HQ]. destruct (body s) as [[e|a] s'].
  - by apply Hh.
  - split; [done|]. exists a. split; [done|]. by apply HQ.
Qed.

Lemma runs_call_inr {A} (a : A) : runs n (call (inr a)) (fun _ => True).
Proof. by apply runs_ret. Qed.

Lemma runs_get_pk (i : nat) : (i < n)%nat -> runs n (get_pk i) (fun _ => True).
Proof.
  intros Hi s Hs. unfold get_pk.
  destruct (lookup_lt_is_Some_2 (pokemons s) i) as [p Hp]; [lia|].
  rewrite Hp. split; [done|]. by exists p.
Qed.

Lemma runs_put_pk (i : nat) (p : PokemonALOs) : runs n (put_pk i p) (fun _ => True).
Proof.
  intros s Hs. split; [|by exists tt]. simpl. by rewrite length_insert.
Qed.

Lemma runs_modify_pk (i : nat) (f : PokemonALOs -> PokemonALOs) :
  (i < n)%nat -> runs n (modify_pk i f) (fun _ => True).
Proof.
  intros Hi. eapply runs_bind; [by apply runs_get_pk|]. intros. apply runs_put_pk.
Qed.

Lemma keeps_get_pk (i : nat) : keeps n (get_pk i) (fun _ => True).
Proof. intros s Hs. unfold get_pk. destruct (pokemons s !! i); split; done. Qed.

Lemma keeps_modify_pk (i : nat) (f : PokemonALOs -> PokemonALOs) :
  keeps n (modify_pk i f) (fun _ => True).
Proof.
  eapply keeps_bind; [apply keeps_get_pk|]. intros. by apply runs_keeps, runs_put_pk.
Qed.

Lemma runs_gets_length : runs n (gets (fun s => length (pokemons s))) (fun m => m = n).
Proof. intros s Hs. split; [done|]. by exists (length (pokemons s)). Qed.

Lemma runs_gets {A} (f : St -> A) : runs n (gets f) (fun _ => True).
Proof. intros s Hs. split; [done|]. by exists (f s). Qed.

Lemma runs_set_field (l : list Item) :
  runs n (modify_st (fun s => set_items_on_field s l)) (fun _ => True).
Proof. intros s Hs. split; [done|]. by exists tt. Qed.

Lemma runs_append_field (it : Item) :
  runs n (modify_st (fun s => set_items_on_field s (items_on_field s ++ [it])))
    (fun _ => True).
Proof. intros s Hs. split; [done|]. by exists tt. Qed.

Lemma runs_bump_step_count :
  runs n (modify_st (fun s => set_step_count s (step_count s + 1))) (fun _ => True).
Proof. intros s Hs. split; [done|]. by exists tt. Qed.

Lemma runs_log_event (e : string) : runs n (log_event e) (fun _ => True).
Proof. intros s Hs. split; [done|]. by exists tt. Qed.

Lemma runs_random : runs n random_ (fun _ => True).
Proof. intros s Hs. split; [done|]. by eexists. Qed.

Lemma runs_uniform (a b : R) : runs n (uniform a b) (fun _ => True).
Proof. eapply runs_bind; [apply runs_random|]. intros. by apply runs_ret. Qed.

Lemma runs_randint (a b : Z) : runs n (randint a b) (fun _ => True).
Proof. eapply runs_bind; [apply runs_random|]. intros. by apply runs_ret. Qed.

(** [rand_index m] picks an index below [m] when [m > 0]. *)
Lemma runs_rand_index (m : nat) :
  runs n (rand_index m) (fun i => (0 < m)%nat -> (i < m)%nat).
Proof.
  eapply runs_bind; [apply runs_random|]. intros u _. apply runs_ret. intros Hm. lia.
Qed.

Lemma keeps_randint (a b : Z) : keeps n (randint a b) (fun _ => True).
Proof. apply runs_keeps, runs_randint. Qed.

Lemma keeps_log_event (e : string) : keeps n (log_event e) (fun _ => True).
Proof. apply runs_keeps, runs_log_event. Qed.

Lemma runs_choice {A} (l : list A) : l <> [] -> runs n (choice l) (fun x => x ∈ l).
Proof.
  intros Hl. eapply runs_bind; [apply runs_rand_index|]. intros i Hi.
  assert (Hlen : (0 < length l)%nat) by (destruct l; [done|simpl; lia]).
  destruct (lookup_lt_is_Some_2 l i) as [x Hx]; [by apply Hi|].
  rewrite Hx. apply runs_ret. by eapply list_elem_of_lookup_2.
Qed.

(** [random.sample(l, k)] with [k <= len(l)] returns [k] elements of [l]. *)
Lemma runs_sample {A} (l : list A) (k : nat) :
  (k <= length l)%nat ->
  runs n (sample l k) (fun r => length r = k /\ Forall (fun x => x ∈ l) r).
Proof.
  revert l. induction k as [|k IH]; intros l Hk; simpl; [by apply runs_ret|].
  eapply runs_bind; [apply runs_rand_index|]. intros i Hi.
  destruct (lookup_lt_is_Some_2 l i) as [x Hx]; [apply Hi; lia|].
  rewrite Hx.
  eapply runs_bind; [apply IH; rewrite length_delete; [lia|by eexists]|].
  intros r [Hr Hrl]. apply runs_ret. split; [simpl; lia|]. constructor.
  - by eapply list_elem_of_lookup_2.
  - eapply Forall_impl; [exact Hrl|]. intros y. apply list_elem_of_delete_inv.
Qed.

End Runs.

#[export] Hint Resolve runs_ret runs_get_pk runs_put_pk runs_modify_pk runs_gets
  runs_set_field runs_append_field runs_bump_step_count runs_log_event runs_random
  runs_uniform runs_randint runs_rand_index runs_choice runs_call_inr : runs_db.
#[export] Hint Resolve keeps_ret keeps_call keeps_get_pk keeps_modify_pk keeps_randint
  keeps_log_event : runs_db.
#[export] Hint Extern 1 (_ < _)%nat => lia : runs_db.
#[export] Hint Extern 1 (_ <> []) => discriminate : runs_db.

Ltac keeps_tac :=
  repeat match goal with
  | |- keeps _ (bind _ _) _ =>
      apply (keeps_bind _ _ _ (fun _ => True)); [solve [eauto with runs_db] | intros ? _]
  | |- keeps _ _ _ => solve [eauto with runs_db]
  end.

(** Walking through monadic code with the [runs] rules. *)
Ltac runs_tac :=
  repeat match goal with
  | |- runs _ (ret _) _ => apply runs_ret; try done
  | |- runs _ (try_except _ _) _ => apply runs_try; [keeps_tac | intros ?]
  | |- runs _ (bind (gets (fun s => length (pokemons s))) _) _ =>
      eapply runs_bind; [apply runs_gets_length | intros ? ->]
  | |- runs _ (bind _ _) _ =>
      first [ eapply runs_bind;
              [solve [eauto with runs_db] | let H := fresh "H" in intros ? H; cbv beta in H]
            | apply (runs_bind _ _ _ (fun _ => True)); [ | intros ? _ ] ]
  | |- runs _ (if ?b then _ else _) _ => destruct b
  | |- runs _ (match ?x with _ => _ end) _ => destruct x
  | |- runs _ _ _ => solve [eauto with runs_db]
  end.

Lemma runs_for_each {A} (n : nat) (l : list A) (f : A -> M (list string)) :
  (forall x, x ∈ l -> runs n (f x) (fun _ => True)) ->
  runs n (for_each l f) (fun _ => True).
Proof.
  intros Hf. induction l as [|x l IH]; simpl; [by apply runs_ret|].
  eapply runs_bind; [apply Hf; by left|]. intros e _.
  eapply runs_bind; [apply IH; intros y Hy; apply Hf; by right|]. intros.
  by apply runs_ret.
Qed.

Lemma runs_create_random_berry (n : nat) : runs n create_random_berry (fun _ => True).
Proof.
  unfold create_random_berry. eapply runs_bind; [apply runs_choice; discriminate|].
  intros [[[a b] d] e] _. by apply runs_ret.
Qed.

Lemma runs_spawn_item (n : nat) : runs n spawn_item (fun _ => True).
Proof.
  unfold spawn_item. runs_tac. apply runs_create_random_berry.
Qed.

Lemma runs_handle_awareness (n i j : nat) :
  (i < n)%nat -> (j < n)%nat -> runs n (handle_awareness i j) (fun _ => True).
Proof. intros Hi Hj. unfold handle_awareness. runs_tac. Qed.

Lemma runs_practice_move (n i : nat) : (i < n)%nat -> runs n (practice_move i) (fun _ => True).
Proof. intros Hi. unfold practice_move. runs_tac. Qed.

Lemma runs_random_walk (n i : nat) (sp : R) :
  (i < n)%nat -> runs n (random_walk i sp) (fun _ => True).
Proof. intros Hi. unfold random_walk. runs_tac. Qed.

#[export] Hint Resolve runs_handle_awareness runs_practice_move runs_random_walk : runs_db.

Lemma runs_handle_individual_action (n i : nat) :
  (i < n)%nat -> runs n (handle_individual_action i) (fun _ => True).
Proof. intros Hi. unfold handle_individual_action. runs_tac. Qed.

Lemma runs_individual_body (n i : nat) :
  (i < n)%nat -> runs n (individual_body i) (fun _ => True).
Proof.
  intros Hi. unfold individual_body.
  eapply runs_bind; [by apply runs_handle_individual_action|]. intros _ _.
  eapply runs_bind; [by apply runs_get_pk|]. intros pokemon _.
  eapply runs_bind; [apply runs_gets|]. intros field _.
  destruct (check_pickup pokemon (6 / 10) field) as [picked field'].
  eapply runs_bind; [apply runs_set_field|]. intros _ _.
  apply (runs_bind _ _ _ (fun _ => True)).
  { destruct picked as [it|]; [|by apply runs_ret].
    eapply runs_bind; [by apply runs_get_pk|]. intros p2 _.
    destruct (add_item p2 it) as [added p3].
    eapply runs_bind; [apply runs_put_pk|]. intros _ _.
    destruct added; [apply runs_log_event|].
    destruct (item_use it p3) as [res p4].
    eapply runs_bind; [apply runs_put_pk|]. intros _ _.
    apply runs_log_event. }
  intros _ _.
  eapply runs_bind; [by apply runs_get_pk|]. intros p5 _.
  destruct (auto_use_item p5) as [r p6].
  eapply runs_bind; [apply runs_put_pk|]. intros _ _.
  apply (runs_bind _ _ _ (fun _ => True)).
  - destruct (truthy r); [apply runs_log_event|by apply runs_ret].
  - intros. by apply runs_ret.
Qed.

Lemma runs_individual_phase (n : nat) : runs n (individual_phase n) (fun _ => True).
Proof.
  apply runs_for_each. intros i Hi. apply elem_of_seq in Hi.
  apply runs_individual_body. lia.
Qed.

Section HealthyContext.
Variable c : Collab.
Hypothesis Hc : context_source_ok c.

Lemma runs_query_context (n : nat) (q : string) (k : Z) :
  runs n (call (query_context c q k)) (fun _ => True).
Proof. destruct Hc as [Hq _]. destruct (Hq q k) as [r ->]. apply runs_call_inr. Qed.

Lemma runs_scenarios (n : nat) :
  runs n (call (get_interaction_scenarios c)) (fun _ => True).
Proof. destruct Hc as [_ [l ->]]. apply runs_call_inr. Qed.

#[local] Hint Resolve runs_query_context runs_scenarios : runs_db.

Lemma runs_simulate_battle (n i j : nat) :
  (i < n)%nat -> (j < n)%nat -> runs n (simulate_battle c i j) (fun _ => True).
Proof. intros Hi Hj. unfold simulate_battle. runs_tac. Qed.

Lemma runs_simulate_friendship (n i j : nat) :
  (i < n)%nat -> (j < n)%nat -> runs n (simulate_friendship c i j) (fun _ => True).
Proof. intros Hi Hj. unfold simulate_friendship. runs_tac. Qed.

#[local] Hint Resolve runs_simulate_battle runs_simulate_friendship : runs_db.

Lemma runs_handle_interaction (n i j : nat) :
  (i < n)%nat -> (j < n)%nat -> runs n (handle_interaction c i j) (fun _ => True).
Proof. intros Hi Hj. unfold handle_interaction. runs_tac. Qed.

#[local] Hint Resolve runs_handle_interaction : runs_db.

Lemma runs_pair_body (n i j : nat) :
  (i < n)%nat -> (j < n)%nat -> runs n (pair_body c i j) (fun _ => True).
Proof. intros Hi Hj. unfold pair_body. runs_tac. Qed.

Lemma runs_pairwise_phase (n : nat) : runs n (pairwise_phase c n) (fun _ => True).
Proof.
  unfold pairwise_phase. apply runs_for_each. intros i Hi. apply elem_of_seq in Hi.
  apply runs_for_each. intros j Hj. apply elem_of_seq in Hj.
  apply runs_pair_body; lia.
Qed.

Lemma runs_trigger_random_event (n : nat) :
  runs n (trigger_random_event c) (fun _ => True).
Proof.
  unfold trigger_random_event.
  eapply runs_bind; [apply runs_scenarios|]. intros scenarios _.
  destruct scenarios as [|sc scs]; [by apply runs_ret|].
  eapply runs_bind; [apply runs_choice; discriminate|]. intros scenario _.
  eapply runs_bind; [apply runs_log_event|]. intros _ _.
  eapply runs_bind; [apply runs_gets_length|]. intros ? ->.
  eapply runs_bind; [apply runs_sample; rewrite length_seq; lia|].
  intros selected [_ Hsel].
  apply (runs_bind _ _ _ (fun _ => True)); [|intros; by apply runs_ret].
  destruct selected as [|a [|b [|]]]; try by apply runs_ret.
  apply Forall_cons in Hsel as [Ha Hsel]. apply Forall_cons in Hsel as [Hb _].
  apply elem_of_seq in Ha, Hb.
  eapply runs_bind; [apply runs_get_pk; lia|]. intros. apply runs_modify_pk. lia.
Qed.

#[local] Hint Resolve runs_pairwise_phase runs_trigger_random_event runs_spawn_item
  runs_individual_phase : runs_db.

Lemma runs_step (n : nat) : runs n (step c) (fun _ => True).
Proof. unfold step. runs_tac. Qed.

End HealthyContext.

(** A context source that is down, and a narrator that works. *)
Definition collab_context_down : Collab :=
  mkCollab (fun _ _ _ => inr "narrative") (fun _ _ => inl "ConnectionError") (inr []).

(** A narrator that works and a context source that cannot list scenarios. *)
Definition collab_no_scenarios : Collab :=
  mkCollab (fun _ _ _ => inr "narrative") (fun _ _ => inr []) (inl "ConnectionError").

(** Two agents one unit apart; every draw of [random.random()] is [0.05]. *)
Definition st_two_low : St :=
  mkSt [pk_pikachu; pk_meowth] [] [] 0 (Streams.const (1 / 20)%R).

(** No agent; every draw is [0.05]. *)
Definition st_empty_low : St := mkSt [] [] [] 0 (Streams.const (1 / 20)%R).

(** A square root with a known value. *)
Lemma sqrt_eq_val (e v : R) : (0 <= v)%R -> e = (v * v)%R -> sqrt e = v.
Proof. intros Hv ->. by apply sqrt_square. Qed.

(** Evaluating the engine on a concrete state: reduce the head of the
    left-hand side only, and settle each comparison of reals that blocks it
    (the real numbers are not computable). *)
Ltac rcbv_in H :=
  cbv -[pretty up Int_part partial_alter Rlt_dec Rle_dec Rdiv Rmult Rplus Rminus
        IZR Rlt Rle sqrt Ropp Rinv] in H.
Ltac sqrt_val_in H :=
  repeat match type of H with
  | context [sqrt ?e] =>
      first [ rewrite (sqrt_eq_val e 1) in H by lra | rewrite (sqrt_eq_val e 2) in H by lra
            | rewrite (sqrt_eq_val e 3) in H by lra
            | rewrite (sqrt_eq_val e (14 / 5)) in H by lra ]
  end.
Ltac refute_R H := rcbv_in H; sqrt_val_in H; exfalso; lra.
Ltac plain_R x :=
  let x' := eval cbv -[pretty up Int_part partial_alter Rlt_dec Rle_dec Rdiv Rmult
                        Rplus Rminus IZR Rlt Rle sqrt Ropp Rinv] in x in
  lazymatch x' with
  | context [Rlt_dec _ _] => fail
  | context [Rle_dec _ _] => fail
  | _ => idtac
  end.
Ltac decide_R :=
  match goal with
  | |- context [Rlt_dec ?x ?y] =>
      plain_R x; plain_R y;
      let H := fresh "H" in
      first [ destruct (Rlt_dec x y) as [H|H]; [refute_R H|]
            | destruct (Rlt_dec x y) as [H|H]; [|refute_R H] ]
  | |- context [Rle_dec ?x ?y] =>
      plain_R x; plain_R y;
      let H := fresh "H" in
      first [ destruct (Rle_dec x y) as [H|H]; [refute_R H|]
            | destruct (Rle_dec x y) as [H|H]; [|refute_R H] ]
  end.
Ltac lhs_head0 :=
  match goal with |- ?t = _ =>
    let t' := (eval lazy head in t) in progress change t with t' end.
Ltac lhs_head := with_strategy transparent [gmap_empty] lhs_head0.
Ltac run_lhs := repeat first [lhs_head | decide_R].

(** C1 (counterexample). A failure of the context source is not caught:
    with agents one unit apart and a draw of [0.05 < 0.15], [step()] runs a
    battle whose [query_context] call raises, and the exception leaves
    [step()]; with no agent and a draw of [0.05 < 0.1], the random event's
    [get_interaction_scenarios] call raises, and the exception leaves
    [step()] too. *)
Lemma step_propagates_context_failure :
  fst (step collab_context_down st_two_low) = inl "ConnectionError" /\
  fst (step collab_no_scenarios st_empty_low) = inl "ConnectionError".
Proof. split; run_lhs; reflexivity. Qed.
(** C1 (amended). When the context source answers every call, [step()]
    returns a snapshot whatever the narrator does: narrator failures in
    battle and friendship resolution are caught and replaced by the
    fallback, and no other exception can arise. *)
Theorem step_returns_when_context_ok (c : Collab) (s : St)
  (Hc : context_source_ok c) :
  exists snap, fst (step c s) = inr snap.
Proof.
  destruct (runs_step c Hc (length (pokemons s)) s eq_refl) as [_ (snap & Hsnap & _)].
  by exists snap.
Qed.

Lemma step_returns_when_context_ok_witness :
  context_source_ok collab_failing_narrator /\
  exists snap, fst (step collab_failing_narrator st_two) = inr snap.
Proof.
  assert (H : context_source_ok collab_failing_narrator).
  { split; [intros q k; eexists; reflexivity | eexists; reflexivity]. }
  split; [exact H|]. apply (step_returns_when_context_ok collab_failing_narrator st_two H).
Defined.

(** ** The pairwise phase read with start-of-phase distances *)

(** The pair loop of [step] as the spec words it: the band of each pair is
    taken from the agents' positions as of the start of the pairwise phase
    ([start]); the resolutions themselves are the code's. *)
Definition pair_body_at_start (c : Collab) (start : list PokemonALOs) (i j : nat)
  : M (list string) :=
  match start !! i, start !! j with
  | Some pokemon1, Some pokemon2 =>
      let distance := distance_to pokemon1 pokemon2 in
      if Rlt_dec distance (3 / 2) then
        event <- handle_interaction c i j ;;
        match truthy event with Some e => ret [e] | None => ret [] end
      else if Rlt_dec distance 3 then
        handle_awareness i j ;;; ret []
      else ret []
  | _, _ => raise "IndexError"
  end.

Definition pairwise_phase_at_start (c : Collab) (n : nat) : M (list string) :=
  start <- gets pokemons ;;
  for_each (seq 0 n) (fun i =>
    for_each (seq (S i) (n - S i)) (fun j => pair_body_at_start c start i j)).

(** Three agents on a line: [a] at 0, hostile ([-40]) to [b] at 2 and to
    [c] at 3; [b] and [c] are neutral to each other. *)
Definition pk_a : PokemonALOs :=
  mkPokemon "a" "A" (0, 0)%R 100 100 normal [] (<["b" := -40]> (<["c" := -40]> ∅)) [] 3.
Definition pk_b : PokemonALOs := mkPokemon "b" "B" (2, 0)%R 100 100 normal [] ∅ [] 3.
Definition pk_c : PokemonALOs := mkPokemon "c" "C" (3, 0)%R 100 100 normal [] ∅ [] 3.

Definition st_three : St :=
  mkSt [pk_a; pk_b; pk_c] [] [] 1 (Streams.const (1 / 2)%R).

Ltac rcbv_goal :=
  cbv -[pretty up Int_part partial_alter Rlt_dec Rle_dec Rdiv Rmult Rplus Rminus
        IZR Rlt Rle sqrt Ropp Rinv].
Ltac sqrt_val :=
  repeat match goal with
  | |- context [sqrt ?e] =>
      first [ rewrite (sqrt_eq_val e 1) by lra | rewrite (sqrt_eq_val e 2) by lra
            | rewrite (sqrt_eq_val e 3) by lra | rewrite (sqrt_eq_val e (14 / 5)) by lra ]
  end.
Ltac R_eval :=
  repeat first [ progress rcbv_goal | progress sqrt_val | decide_R ].

Lemma move_towards_b_from (p : PokemonALOs) :
  position p = (0, 0)%R ->
  move_towards p (position pk_b) (2 / 10) = set_position p (1 / 5, 0)%R.
Proof.
  intros Hp. unfold move_towards, update_position. rewrite Hp. R_eval.
  f_equal; f_equal; lra.
Qed.

Lemma move_towards_c_from (p : PokemonALOs) :
  position p = (1 / 5, 0)%R ->
  position (move_towards p (position pk_c) (2 / 10)) = (2 / 5, 0)%R.
Proof.
  intros Hp. unfold move_towards, update_position. rewrite Hp. R_eval.
  f_equal; lra.
Qed.




(** ** Invariants kept by the engine *)

(** The engine changes its state only in a few ways: an agent read with
    [get_pk] and written back with [put_pk], the random stream advanced, an
    event logged, the field replaced by what [check_pickup] leaves, a berry
    appended to a field with room, and the step counter bumped once at the
    start of [step]. A property [I] of the state that each of these keeps,
    where the agents written back satisfy [P], holds after [step]. *)
Section Invariant.
Variable I : St -> Prop.
Variable P : nat -> PokemonALOs -> Prop.

Hypothesis I_get : forall s i p, I s -> pokemons s !! i = Some p -> P i p.
Hypothesis I_put : forall s i p, I s -> P i p -> I (set_pokemons s (<[i := p]> (pokemons s))).
Hypothesis I_rng : forall s r, I s -> I (set_rng s r).
Hypothesis I_log : forall s e, I s -> I (set_event_log s (push_log (step_count s) e (event_log s))).
Hypothesis I_pickup : forall s p d o field',
  I s -> check_pickup p d (items_on_field s) = (o, field') -> I (set_items_on_field s field').
Hypothesis I_spawn : forall s it xy,
  I s -> (length (items_on_field s) < max_items_on_field)%nat ->
  I (set_items_on_field s (items_on_field s ++ [set_item_position it (Some xy)])).

Hypothesis P_take_damage : forall i p d, P i p -> P i (take_damage p d).
Hypothesis P_heal : forall i p a, P i p -> P i (heal p a).
Hypothesis P_rest : forall i p, P i p -> P i (rest p).
Hypothesis P_set_mood : forall i p m, P i p -> P i (set_mood p m).
Hypothesis P_update_relationship : forall i p k ch, P i p -> P i (update_relationship p k ch).
Hypothesis P_update_position : forall i p dx dy, P i p -> P i (update_position p dx dy).
Hypothesis P_learn_move : forall i p m, P i p -> P i (learn_move p m).
Hypothesis P_add_item : forall i p it, P i p -> P i (snd (add_item p it)).
Hypothesis P_item_use : forall i it p, P i p -> P i (snd (item_use it p)).
Hypothesis P_auto_use_item : forall i p, P i p -> P i (snd (auto_use_item p)).

(** [m] keeps [I], also when it raises, and its result satisfies [Q]. *)
Definition holds {A} (m : M A) (Q : A -> Prop) : Prop :=
  forall s, I s -> I (snd (m s)) /\ forall a, fst (m s) = inr a -> Q a.

Lemma holds_ret {A} (a : A) (Q : A -> Prop) : Q a -> holds (ret a) Q.
Proof. intros HQ s Hs. split; [done|]. intros a' [= <-]. done. Qed.

Lemma holds_bind {A B} (m : M A) (k : A -> M B) (R' : A -> Prop) (Q : B -> Prop) :
  holds m R' -> (forall a, R' a -> holds (k a) Q) -> holds (bind m k) Q.
Proof.
  intros Hm Hk s Hs. unfold bind.
  destruct (Hm s Hs) as [Hs' HR]. destruct (m s) as [[e|a] s'].
  - split; [done|]. intros ? [=].
  - apply Hk; [by apply HR|done].
Qed.

(** A [gets] whose value the rest of the code uses with the state it was
    read from. *)
Lemma holds_bind_gets {A B} (f : St -> A) (k : A -> M B) (Q : B -> Prop) :
  (forall s, I s -> I (snd (k (f s) s)) /\ forall b, fst (k (f s) s) = inr b -> Q b) ->
  holds (bind (gets f) k) Q.
Proof. intros H s Hs. exact (H s Hs). Qed.

Lemma holds_raise {A} (e : exn) (Q : A -> Prop) : holds (raise e) Q.
Proof. intros s Hs. split; [done|]. intros ? [=]. Qed.

Lemma holds_call {A} (r : exn + A) : holds (call r) (fun _ => True).
Proof. destruct r; [apply holds_raise|by apply holds_ret]. Qed.

Lemma holds_try {A} (body : M A) (h : exn -> M A) (Q : A -> Prop) :
  holds body Q -> (forall e, holds (h e) Q) -> holds (try_except body h) Q.
Proof.
  intros Hb Hh s Hs. unfold try_except.
  destruct (Hb s Hs) as [Hs' HQ]. destruct (body s) as [[e|a] s'].
  - by apply Hh.
  - split; [done|]. intros a' [= <-]. by apply HQ.
Qed.

Lemma holds_get_pk (i : nat) : holds (get_pk i) (P i).
Proof.
  intros s Hs. unfold get_pk. destruct (pokemons s !! i) eqn:E; simpl.
  - split; [done|]. intros a [= <-]. by eapply I_get.
  - split; [done|]. intros ? [=].
Qed.

Lemma holds_put_pk (i : nat) (p : PokemonALOs) : P i p -> holds (put_pk i p) (fun _ => True).
Proof. intros Hp s Hs. split; [by apply I_put|done]. Qed.

Lemma holds_modify_pk (i : nat) (f : PokemonALOs -> PokemonALOs) :
  (forall p, P i p -> P i (f p)) -> holds (modify_pk i f) (fun _ => True).
Proof.
  intros Hf. eapply holds_bind; [apply holds_get_pk|]. intros p Hp.
  apply holds_put_pk. by apply Hf.
Qed.

Lemma holds_gets {A} (f : St -> A) : holds (gets f) (fun _ => True).
Proof. intros s Hs. split; [done|]. intros; done. Qed.

Lemma holds_random : holds random_ (fun _ => True).
Proof. intros s Hs. split; [by apply I_rng|done]. Qed.

Lemma holds_uniform (a b : R) : holds (uniform a b) (fun _ => True).
Proof. eapply holds_bind; [apply holds_random|]. intros. by apply holds_ret. Qed.

Lemma holds_randint (a b : Z) : holds (randint a b) (fun _ => True).
Proof. eapply holds_bind; [apply holds_random|]. intros. by apply holds_ret. Qed.

Lemma holds_rand_index (n : nat) : holds (rand_index n) (fun _ => True).
Proof. eapply holds_bind; [apply holds_random|]. intros. by apply holds_ret. Qed.

Lemma holds_choice {A} (l : list A) : holds (choice l) (fun _ => True).
Proof.
  eapply holds_bind; [apply holds_rand_index|]. intros i _.
  destruct (l !! i); [by apply holds_ret|apply holds_raise].
Qed.

Lemma holds_sample {A} (l : list A) (k : nat) : holds (sample l k) (fun _ => True).
Proof.
  revert l. induction k as [|k IH]; intros l; simpl; [by apply holds_ret|].
  eapply holds_bind; [apply holds_rand_index|]. intros i _.
  destruct (l !! i); [|apply holds_raise].
  eapply holds_bind; [apply IH|]. intros. by apply holds_ret.
Qed.

Lemma holds_log_event (e : string) : holds (log_event e) (fun _ => True).
Proof. intros s Hs. split; [by apply I_log|done]. Qed.

Lemma holds_for_each {A} (l : list A) (f : A -> M (list string)) :
  (forall x, holds (f x) (fun _ => True)) -> holds (for_each l f) (fun _ => True).
Proof.
  intros Hf. induction l as [|x l IH]; simpl; [by apply holds_ret|].
  eapply holds_bind; [apply Hf|]. intros e _.
  eapply holds_bind; [apply IH|]. intros. by apply holds_ret.
Qed.

Lemma P_move_towards (i : nat) (p : PokemonALOs) (t : R * R) (sp : R) :
  P i p -> P i (move_towards p t sp).
Proof.
  intros Hp. unfold move_towards. destruct (position p), t.
  destruct (Rlt_dec _ _); [by apply P_update_position|done].
Qed.

Lemma P_move_away (i : nat) (p : PokemonALOs) (t : R * R) (sp : R) :
  P i p -> P i (move_away p t sp).
Proof.
  intros Hp. unfold move_away. destruct (position p), t.
  destruct (Rlt_dec _ _); [by apply P_update_position|done].
Qed.

Create HintDb holds_db.
#[local] Hint Resolve holds_get_pk holds_put_pk holds_modify_pk holds_gets holds_random
  holds_uniform holds_randint holds_rand_index holds_choice holds_sample holds_log_event
  holds_call P_take_damage P_heal P_rest P_set_mood P_update_relationship
  P_update_position P_learn_move P_move_towards P_move_away : holds_db.

Ltac holds_tac :=
  repeat match goal with
  | |- holds (ret _) _ => apply holds_ret; try done
  | |- holds (raise _) _ => apply holds_raise
  | |- holds (try_except _ _) _ => apply holds_try; [|intros ?]
  | |- holds (bind _ _) _ =>
      first [ eapply holds_bind;
              [solve [eauto with holds_db] | let H := fresh "H" in intros ? H; cbv beta in H]
            | apply (holds_bind _ _ (fun _ => True)); [ | intros ? _ ] ]
  | |- holds (if ?b then _ else _) _ => destruct b
  | |- holds (match ?x with _ => _ end) _ => destruct x
  | |- holds _ _ => solve [eauto with holds_db]
  end.

Lemma holds_simulate_battle (c : Collab) (i j : nat) :
  holds (simulate_battle c i j) (fun _ => True).
Proof. unfold simulate_battle. holds_tac. Qed.

Lemma holds_simulate_friendship (c : Collab) (i j : nat) :
  holds (simulate_friendship c i j) (fun _ => True).
Proof. unfold simulate_friendship. holds_tac. Qed.

#[local] Hint Resolve holds_simulate_battle holds_simulate_friendship : holds_db.

Lemma holds_handle_interaction (c : Collab) (i j : nat) :
  holds (handle_interaction c i j) (fun _ => True).
Proof. unfold handle_interaction. holds_tac. Qed.

Lemma holds_handle_awareness (i j : nat) : holds (handle_awareness i j) (fun _ => True).
Proof. unfold handle_awareness. holds_tac. Qed.

Lemma holds_practice_move (i : nat) : holds (practice_move i) (fun _ => True).
Proof. unfold practice_move. holds_tac. Qed.

Lemma holds_random_walk (i : nat) (sp : R) : holds (random_walk i sp) (fun _ => True).
Proof. unfold random_walk. holds_tac. Qed.

#[local] Hint Resolve holds_handle_interaction holds_handle_awareness holds_practice_move
  holds_random_walk : holds_db.

Lemma holds_handle_individual_action (i : nat) :
  holds (handle_individual_action i) (fun _ => True).
Proof. unfold handle_individual_action. holds_tac. Qed.

Lemma holds_trigger_random_event (c : Collab) :
  holds (trigger_random_event c) (fun _ => True).
Proof. unfold trigger_random_event. holds_tac. Qed.

Lemma holds_pair_body (c : Collab) (i j : nat) : holds (pair_body c i j) (fun _ => True).
Proof. unfold pair_body. holds_tac. Qed.

Lemma holds_pairwise_phase (c : Collab) (n : nat) :
  holds (pairwise_phase c n) (fun _ => True).
Proof.
  unfold pairwise_phase. apply holds_for_each. intros i.
  apply holds_for_each. intros j. apply holds_pair_body.
Qed.

#[local] Hint Resolve holds_handle_individual_action holds_trigger_random_event
  holds_pairwise_phase : holds_db.

(** A computation whose only effect is to advance the random stream. *)
Definition rng_only {A} (m : M A) : Prop := forall s, exists r, snd (m s) = set_rng s r.

Lemma rng_only_bind {A B} (m : M A) (k : A -> M B) :
  rng_only m -> (forall a, rng_only (k a)) -> rng_only (bind m k).
Proof.
  intros Hm Hk s. unfold bind. destruct (Hm s) as [r1 E1].
  destruct (m s) as [[e|a] s1]; simpl in *; subst s1; [by exists r1|].
  destruct (Hk a (set_rng s r1)) as [r2 E2]. by exists r2.
Qed.

Lemma rng_only_ret {A} (a : A) : rng_only (ret a).
Proof. intros [] . by exists rng0. Qed.

Lemma rng_only_raise {A} (e : exn) : rng_only (@raise A e).
Proof. intros []. by exists rng0. Qed.

Lemma rng_only_random : rng_only random_.
Proof. intros s. by eexists. Qed.

Lemma rng_only_rand_index (n : nat) : rng_only (rand_index n).
Proof. apply rng_only_bind; [apply rng_only_random|]. intros. apply rng_only_ret. Qed.

Lemma rng_only_uniform (a b : R) : rng_only (uniform a b).
Proof. apply rng_only_bind; [apply rng_only_random|]. intros. apply rng_only_ret. Qed.

Lemma rng_only_create_random_berry : rng_only create_random_berry.
Proof.
  apply rng_only_bind.
  - apply rng_only_bind; [apply rng_only_rand_index|]. intros i.
    destruct (_ !! i); [apply rng_only_ret|apply rng_only_raise].
  - intros [[[n t] et] v]. apply rng_only_ret.
Qed.

(** The state reached by a computation that only advances the random
    stream, followed by [k]. *)
Lemma I_after_rng_only {A B} (m : M A) (k : A -> M B) (s : St) :
  rng_only m -> I s -> (forall a r, I (snd (k a (set_rng s r)))) ->
  I (snd (bind m k s)).
Proof.
  intros Hm Hs Hk. unfold bind. destruct (Hm s) as [r E].
  destruct (m s) as [[e|a] s1]; simpl in *; subst s1; [by apply I_rng|apply Hk].
Qed.

Lemma holds_spawn_item : holds spawn_item (fun _ => True).
Proof.
  unfold spawn_item. apply holds_bind_gets. intros s Hs. split; [|done].
  destruct (max_items_on_field <=? length (items_on_field s))%nat eqn:E; [done|].
  apply Nat.leb_gt in E.
  apply I_after_rng_only; [apply rng_only_random|done|]. intros r r1. cbv beta.
  destruct (Rlt_dec _ _); [|by apply I_rng].
  apply I_after_rng_only; [apply rng_only_create_random_berry|by repeat apply I_rng|].
  intros item r2. cbv beta.
  apply I_after_rng_only; [apply rng_only_uniform|by repeat apply I_rng|]. intros x r3. cbv beta.
  apply I_after_rng_only; [apply rng_only_uniform|by repeat apply I_rng|]. intros y r4. cbv beta.
  apply I_spawn; [by repeat apply I_rng|exact E].
Qed.

Lemma holds_at_modify {A} (f : St -> St) (k : unit -> M A) (Q : A -> Prop) (s : St) :
  I (f s) -> holds (k tt) Q ->
  I (snd (bind (modify_st f) k s)) /\ forall a, fst (bind (modify_st f) k s) = inr a -> Q a.
Proof. intros H Hk. exact (Hk _ H). Qed.

Lemma holds_individual_body (i : nat) : holds (individual_body i) (fun _ => True).
Proof.
  unfold individual_body.
  eapply holds_bind; [apply holds_handle_individual_action|]. intros _ _.
  eapply holds_bind; [apply holds_get_pk|]. intros pokemon Hp.
  apply holds_bind_gets. intros s Hs. cbv beta.
  destruct (check_pickup pokemon (6 / 10) (items_on_field s)) as [picked field'] eqn:Ec.
  apply holds_at_modify; [by eapply I_pickup|].
  apply (holds_bind _ _ (fun _ => True)).
  { destruct picked as [it|]; [|by apply holds_ret].
    eapply holds_bind; [apply holds_get_pk|]. intros p2 Hp2.
    pose proof (P_add_item i p2 it Hp2) as Hadd.
    destruct (add_item p2 it) as [added p3].
    eapply holds_bind; [apply holds_put_pk; exact Hadd|]. intros _ _.
    destruct added; [apply holds_log_event|].
    pose proof (P_item_use i it p3 Hadd) as Huse.
    destruct (item_use it p3) as [res p4].
    eapply holds_bind; [apply holds_put_pk; exact Huse|]. intros _ _.
    apply holds_log_event. }
  intros _ _.
  eapply holds_bind; [apply holds_get_pk|]. intros p5 Hp5.
  pose proof (P_auto_use_item i p5 Hp5) as Hau.
  destruct (auto_use_item p5) as [r p6].
  eapply holds_bind; [apply holds_put_pk; exact Hau|]. intros _ _.
  apply (holds_bind _ _ (fun _ => True)).
  - destruct (truthy r); [apply holds_log_event|by apply holds_ret].
  - intros. by apply holds_ret.
Qed.

Lemma holds_individual_phase (n : nat) : holds (individual_phase n) (fun _ => True).
Proof. apply holds_for_each. apply holds_individual_body. Qed.

#[local] Hint Resolve holds_spawn_item holds_individual_phase : holds_db.

(** [step] keeps [I] from the state with the counter bumped, whether it
    returns or raises. *)
Lemma holds_step (c : Collab) (s : St) :
  I (set_step_count s (step_count s + 1)) -> I (snd (step c s)).
Proof.
  intros Hs. unfold step.
  apply (holds_at_modify (fun s => set_step_count s (step_count s + 1)) _ (fun _ => True));
    [exact Hs|].
  holds_tac.
Qed.

End Invariant.

(** *** What the agent operations leave alone *)

(** [q] differs from [p] at most in hp, energy and mood. *)
Definition vitals_only (p q : PokemonALOs) : Prop :=
  position q = position p /\ relationships q = relationships p /\
  current_abilities q = current_abilities p /\ inventory q = inventory p /\
  max_inventory q = max_inventory p.

Ltac vitals_only_tac :=
  repeat (case_match; simpl); repeat split; reflexivity.

Lemma take_damage_vitals_only (p : PokemonALOs) (d : Z) : vitals_only p (take_damage p d).
Proof. unfold take_damage. vitals_only_tac. Qed.

Lemma heal_vitals_only (p : PokemonALOs) (a : Z) : vitals_only p (heal p a).
Proof. unfold heal. vitals_only_tac. Qed.

Lemma rest_vitals_only (p : PokemonALOs) : vitals_only p (rest p).
Proof. unfold rest. vitals_only_tac. Qed.

Lemma set_mood_vitals_only (p : PokemonALOs) (m : Mood) : vitals_only p (set_mood p m).
Proof. vitals_only_tac. Qed.

Lemma item_use_vitals_only (it : Item) (p : PokemonALOs) : vitals_only p (snd (item_use it p)).
Proof. unfold item_use, heal. vitals_only_tac. Qed.

Lemma use_item_cases (p : PokemonALOs) (i : nat) :
  snd (use_item p i) = p \/
  exists it, inventory p !! i = Some it /\
    snd (use_item p i) = snd (item_use it (set_inventory p (delete i (inventory p)))).
Proof.
  unfold use_item. destruct (inventory p !! i) as [it|] eqn:E; [|by left].
  right. exists it. split; [done|]. by destruct (item_use _ _).
Qed.

Lemma auto_use_item_cases (p : PokemonALOs) :
  snd (auto_use_item p) = p \/
  exists i it, inventory p !! i = Some it /\
    snd (auto_use_item p) = snd (item_use it (set_inventory p (delete i (inventory p)))).
Proof.
  unfold auto_use_item.
  repeat case_match; try (by left);
    match goal with
    | |- context [use_item p ?i] =>
        destruct (use_item_cases p i) as [->|(it & Hi & ->)]; [by left|right; eauto]
    end.
Qed.

(** [q] keeps the position, relationships, abilities and capacity of [p]
    and holds at most its inventory. *)
Definition inventory_only (p q : PokemonALOs) : Prop :=
  position q = position p /\ relationships q = relationships p /\
  current_abilities q = current_abilities p /\ max_inventory q = max_inventory p /\
  (length (inventory q) <= length (inventory p))%nat.

Lemma auto_use_item_inventory_only (p : PokemonALOs) :
  inventory_only p (snd (auto_use_item p)).
Proof.
  destruct (auto_use_item_cases p) as [->|(i & it & Hi & ->)].
  - repeat split; lia.
  - destruct (item_use_vitals_only it (set_inventory p (delete i (inventory p))))
      as (E1 & E2 & E3 & E4 & E5).
    unfold inventory_only. rewrite E1, E2, E3, E4, E5. simpl. repeat split.
    rewrite length_delete by eauto. lia.
Qed.

Lemma clamp_field (v : R) : (0 <= Rmax 0 (Rmin 10 v) <= 10)%R.
Proof. unfold Rmax, Rmin. repeat destruct (Rle_dec _ _); lra. Qed.

Lemma push_log_length (n : Z) (e : string) (l : list string) :
  (length l <= 200)%nat ->
  length (push_log n e l) = Nat.min 200 (S (length l)).
Proof.
  intros Hl. unfold push_log.
  destruct (200 <? length (l ++ _))%nat eqn:E.
  - apply Nat.ltb_lt in E. rewrite length_app in E. cbn [length] in E.
    rewrite length_drop, length_app. cbn [length]. lia.
  - apply Nat.ltb_ge in E. rewrite length_app in *. cbn [length] in *. lia.
Qed.

Lemma pickup_scan_sub (px py d : R) (l : list Item) (Q : Item -> Prop) :
  Forall Q l ->
  Forall Q (snd (pickup_scan px py d l)) /\
  (length (snd (pickup_scan px py d l)) <= length l)%nat.
Proof.
  induction l as [|it l IH]; intros Hl; simpl; [split; [constructor|lia]|].
  inversion Hl as [|? ? Hit Hl']; subst.
  destruct (within_pickup px py d it); simpl; [split; [done|lia]|].
  destruct (IH Hl') as [H1 H2].
  destruct (pickup_scan px py d l) as [r l'']; simpl in *.
  split; [by constructor|lia].
Qed.

Lemma check_pickup_sub (p : PokemonALOs) (d : R) (field field' : list Item)
  (o : option Item) (Q : Item -> Prop) :
  Forall Q field -> check_pickup p d field = (o, field') ->
  Forall Q field' /\ (length field' <= length field)%nat.
Proof.
  intros Hf E. unfold check_pickup in E. destruct (position p) as [px py].
  pose proof (pickup_scan_sub px py d field Q Hf) as H. rewrite E in H. exact H.
Qed.

(** *** Invariants of the agents kept by [step] *)

Section AgentInvariant.
Variable P : PokemonALOs -> Prop.
Hypothesis P_take_damage : forall p d, P p -> P (take_damage p d).
Hypothesis P_heal : forall p a, P p -> P (heal p a).
Hypothesis P_rest : forall p, P p -> P (rest p).
Hypothesis P_set_mood : forall p m, P p -> P (set_mood p m).
Hypothesis P_update_relationship : forall p k ch, P p -> P (update_relationship p k ch).
Hypothesis P_update_position : forall p dx dy, P p -> P (update_position p dx dy).
Hypothesis P_learn_move : forall p m, P p -> P (learn_move p m).
Hypothesis P_add_item : forall p it, P p -> P (snd (add_item p it)).
Hypothesis P_item_use : forall it p, P p -> P (snd (item_use it p)).
Hypothesis P_auto_use_item : forall p, P p -> P (snd (auto_use_item p)).

Lemma step_keeps_Forall (c : Collab) (s : St) :
  Forall P (pokemons s) -> Forall P (pokemons (snd (step c s))).
Proof.
  intros Hs.
  apply (holds_step (fun s => Forall P (pokemons s)) (fun _ => P)); auto.
  - intros s' i p H E. by eapply Forall_lookup_1.
  - intros s' i p H Hp. by apply Forall_insert.
Qed.
End AgentInvariant.

(** *** Invariants of the state kept by [step] *)

Section StateInvariant.
Variable I : St -> Prop.
Hypothesis I_put : forall s i p, I s -> I (set_pokemons s (<[i := p]> (pokemons s))).
Hypothesis I_rng : forall s r, I s -> I (set_rng s r).
Hypothesis I_log : forall s e, I s -> I (set_event_log s (push_log (step_count s) e (event_log s))).
Hypothesis I_pickup : forall s p d o field',
  I s -> check_pickup p d (items_on_field s) = (o, field') -> I (set_items_on_field s field').
Hypothesis I_spawn : forall s it xy,
  I s -> (length (items_on_field s) < max_items_on_field)%nat ->
  I (set_items_on_field s (items_on_field s ++ [set_item_position it (Some xy)])).

Lemma step_keeps_state (c : Collab) (s : St) :
  I (set_step_count s (step_count s + 1)) -> I (snd (step c s)).
Proof. intros Hs. apply (holds_step I (fun _ _ => True)); auto. Qed.
End StateInvariant.

(** *** Agents stay on the field *)

Definition in_field (p : PokemonALOs) : Prop :=
  (0 <= fst (position p) <= 10 /\ 0 <= snd (position p) <= 10)%R.

Lemma in_field_vitals_only (p q : PokemonALOs) : vitals_only p q -> in_field p -> in_field q.
Proof. intros (E & _) H. unfold in_field. by rewrite E. Qed.

Lemma in_field_update_position (p : PokemonALOs) (dx dy : R) : in_field (update_position p dx dy).
Proof.
  unfold update_position, in_field. destruct (position p). simpl.
  split; apply clamp_field.
Qed.

(** X1. Starting from agents inside the 10 x 10 field, [step] leaves every
    agent inside the field, whether it returns or raises. *)
Theorem step_keeps_agents_in_field (c : Collab) (s : St)
  (Hs : Forall in_field (pokemons s)) :
  Forall in_field (pokemons (snd (step c s))).
Proof.
  apply step_keeps_Forall.
  - intros p d. apply in_field_vitals_only, take_damage_vitals_only.
  - intros p a. apply in_field_vitals_only, heal_vitals_only.
  - intros p. apply in_field_vitals_only, rest_vitals_only.
  - intros p m. apply in_field_vitals_only, set_mood_vitals_only.
  - intros p k ch H. exact H.
  - intros p dx dy _. apply in_field_update_position.
  - intros p m H. unfold learn_move. by case_match.
  - intros p it H. unfold add_item. by case_match.
  - intros it p. apply in_field_vitals_only, item_use_vitals_only.
  - intros p H. destruct (auto_use_item_inventory_only p) as (E & _).
    unfold in_field. by rewrite E.
  - exact Hs.
Qed.

Lemma step_keeps_agents_in_field_witness :
  Forall in_field (pokemons st_two) /\
  Forall in_field (pokemons (snd (step collab_ok st_two))).
Proof.
  assert (H : Forall in_field (pokemons st_two))
    by (repeat constructor; unfold in_field; simpl; lra).
  split; [exact H|]. exact (step_keeps_agents_in_field collab_ok st_two H).
Defined.

(** *** Relationship levels stay in [-100, 100] *)

Definition relationships_ok (p : PokemonALOs) : Prop :=
  map_Forall (fun _ v => -100 <= v <= 100) (relationships p).



(** *** An agent never knows a move twice *)



(** *** Inventories stay within their capacity *)

Definition inventory_ok (p : PokemonALOs) : Prop :=
  Z.of_nat (length (inventory p)) <= max_inventory p.



(** *** The state around the agents *)

(** X5. [step] neither adds nor removes agents, whether it returns or
    raises. *)
Theorem step_keeps_agent_count (c : Collab) (s : St) :
  length (pokemons (snd (step c s))) = length (pokemons s).
Proof.
  apply (step_keeps_state (fun s' => length (pokemons s') = length (pokemons s)));
    try done.
  intros s' i p H. simpl. by rewrite length_insert.
Qed.







(** X9. [step] increases [step_count] by exactly one, whether it returns
    or raises. *)
Theorem step_increments_step_count (c : Collab) (s : St) :
  step_count (snd (step c s)) = step_count s + 1.
Proof.
  apply (step_keeps_state (fun s' => step_count s' = step_count s + 1)); done.
Qed.

(** *** Relationships: update and read back *)

(** X10. After [update_relationship p k change], the level toward [k] is
    the old level (0 when absent) plus [change], clamped to [-100, 100];
    the level toward every other key is unchanged. *)
Theorem update_relationship_get_relationship (p : PokemonALOs) (k : string) (change : Z) :
  get_relationship (update_relationship p k change) k =
    Z.max (-100) (Z.min 100 (get_relationship p k + change)) /\
  forall k', k' <> k ->
    get_relationship (update_relationship p k change) k' = get_relationship p k'.
Proof.
  unfold get_relationship, update_relationship. cbn [relationships set_relationships].
  split.
  - by rewrite lookup_insert_eq.
  - intros k' Hk. by rewrite lookup_insert_ne by congruence.
Qed.

(** *** Learning a move *)

(** X11. After [learn_move p m] the move [m] is known, the moves known
    before are kept in order at the front, and learning [m] again changes
    nothing. *)
Theorem learn_move_known_and_idempotent (p : PokemonALOs) (m : string) :
  m ∈ current_abilities (learn_move p m) /\
  current_abilities p `prefix_of` current_abilities (learn_move p m) /\
  learn_move (learn_move p m) m = learn_move p m.
Proof.
  assert (Hin : m ∈ current_abilities (learn_move p m)).
  { unfold learn_move. destruct (bool_decide _) eqn:E.
    - by apply bool_decide_eq_true in E.
    - simpl. apply elem_of_app. right. by apply list_elem_of_singleton. }
  split; [exact Hin|]. split.
  - unfold learn_move. destruct (bool_decide _); simpl; [done|].
    by eexists.
  - unfold learn_move at 1. rewrite bool_decide_eq_true_2 by exact Hin. reflexivity.
Qed.

(** *** The event log *)

Lemma push_log_last (n : Z) (e : string) (l : list string) :
  exists l', push_log n e l = l' ++ ["[Step " +:+ pretty n +:+ "] " +:+ e].
Proof.
  unfold push_log. destruct (_ <? _)%nat eqn:E; [|by eexists].
  destruct l as [|x l]; [simpl in E; discriminate|].
  exists l. reflexivity.
Qed.

(** X12. Right after [log_event e], [get_recent_logs 1] returns exactly
    the new entry, ["[Step n] e"] for the current step [n], also when the
    log was full and its oldest entry was dropped. *)
Theorem log_event_get_recent_logs (e : string) (s : St) :
  get_recent_logs (snd (log_event e s)) 1 =
    ["[Step " +:+ pretty (step_count s) +:+ "] " +:+ e].
Proof.
  unfold get_recent_logs, log_event, modify_st. cbn [snd event_log set_event_log].
  destruct (push_log_last (step_count s) e (event_log s)) as [l' ->].
  unfold py_slice_from. rewrite length_app. cbn [length].
  assert (E : (- (1) <? 0) = true) by reflexivity. rewrite E.
  replace (Z.to_nat _) with (length l') by lia.
  by rewrite drop_app_length.
Qed.

(** *** Distances and moves *)

(** X13. [distance_to] is symmetric. *)
Theorem distance_to_symmetric (p q : PokemonALOs) : distance_to p q = distance_to q p.
Proof.
  unfold distance_to. destruct (position p) as [x1 y1], (position q) as [x2 y2].
  f_equal. ring.
Qed.

Lemma clamp_field_id (v : R) : (0 <= v <= 10)%R -> Rmax 0 (Rmin 10 v) = v.
Proof. intros Hv. unfold Rmax, Rmin. repeat destruct (Rle_dec _ _); lra. Qed.



(** *** Berries *)

Lemma BERRY_TYPES_known :
  Forall (fun '(_, _, et, v) => et ∈ ["hp"; "energy"; "mood"; "mixed"] /\ 0 < v)
    BERRY_TYPES.
Proof. repeat constructor; lia. Qed.

(** X15. [create_random_berry] never raises: it always returns an
    unplaced item built from an entry of [BERRY_TYPES], whose effect kind
    is one of hp, energy, mood and mixed and whose effect value is
    positive. *)
Theorem create_random_berry_known (s : St) :
  exists it, fst (create_random_berry s) = inr it /\
    (item_name it, item_type it, effect_type it, effect_value it) ∈ BERRY_TYPES /\
    item_position it = None /\
    effect_type it ∈ ["hp"; "energy"; "mood"; "mixed"] /\ 0 < effect_value it.
Proof.
  unfold create_random_berry, choice, rand_index, random_, bind, ret.
  cbv beta iota.
  set (i := Z.to_nat _).
  assert (Hi : (i < length BERRY_TYPES)%nat) by (unfold i; simpl; lia).
  destruct (lookup_lt_is_Some_2 _ _ Hi) as [b Hb]. rewrite Hb.
  pose proof (list_elem_of_lookup_2 _ _ _ Hb) as Hin.
  pose proof (proj1 (Forall_forall _ _) BERRY_TYPES_known b Hin) as Hk.
  destruct b as [[[n t] et] v]. simpl in Hk.
  exists (mkItem n t et v None). split; [reflexivity|]. simpl. tauto.
Qed.


Definition st_full_field : St :=
  mkSt [] (repeat (berry "hp" 20) 5) [] 0 (Streams.const (1 / 100)%R).


(** *** Healing *)

(** X17. Healing by [a] and then by a non-negative [b] is the same as
    healing once by [a + b]: same hp (capped at 100) and same mood. *)
Theorem heal_heal (p : PokemonALOs) (a b : Z) (Hb : 0 <= b) :
  heal (heal p a) b = heal p (a + b).
Proof.
  destruct p. unfold heal, set_hp, set_mood. cbn [hp].
  repeat (case_match; cbn [hp mood] in *);
    repeat match goal with
    | H : (_ <? _) = true |- _ => apply Z.ltb_lt in H
    | H : (_ <? _) = false |- _ => apply Z.ltb_ge in H
    end;
    first [ exfalso; lia | f_equal; lia ].
Qed.

Lemma heal_heal_witness :
  0 <= 10 /\ heal (heal pk_pikachu (-60)) 10 = heal pk_pikachu (-60 + 10).
Proof.
  split; [lia|]. apply (heal_heal pk_pikachu (-60) 10). lia.
Defined.

(** *** Agents keep their identity and their slot *)

(** What [step] never changes about an agent: its key, its name and its
    inventory capacity. *)
Definition agent_id (p : PokemonALOs) : string * string * Z :=
  (key p, name p, max_inventory p).

Ltac agent_id_tac := unfold agent_id; repeat (case_match; simpl); reflexivity.

Lemma agent_id_item_use (it : Item) (p : PokemonALOs) :
  agent_id (snd (item_use it p)) = agent_id p.
Proof. unfold item_use, heal. agent_id_tac. Qed.

Lemma agent_id_auto_use_item (p : PokemonALOs) :
  agent_id (snd (auto_use_item p)) = agent_id p.
Proof.
  destruct (auto_use_item_cases p) as [->|(i & it & _ & ->)]; [reflexivity|].
  by rewrite agent_id_item_use.
Qed.

(** X18. [step] keeps, slot by slot, the key, name and inventory capacity
    of every agent: each engine operation writes an agent back to the slot
    it was read from, and no operation changes these fields. *)
Theorem step_keeps_agent_identities (c : Collab) (s : St) :
  agent_id <$> pokemons (snd (step c s)) = agent_id <$> pokemons s.
Proof.
  apply (holds_step (fun s' => agent_id <$> pokemons s' = agent_id <$> pokemons s)
                    (fun i p => (agent_id <$> pokemons s) !! i = Some (agent_id p))).
  - intros s' i p H E. rewrite <- H, list_lookup_fmap, E. reflexivity.
  - intros s' i p H Hp. cbn [pokemons set_pokemons].
    rewrite list_fmap_insert, H. by apply list_insert_id.
  - intros s' r H. exact H.
  - intros s' e H. exact H.
  - intros s' p d o field' H _. exact H.
  - intros s' it xy H _. exact H.
  - intros i p d H. rewrite H. f_equal; symmetry; unfold take_damage; agent_id_tac.
  - intros i p a H. rewrite H. f_equal; symmetry; unfold heal; agent_id_tac.
  - intros i p H. rewrite H. f_equal; symmetry; unfold rest; agent_id_tac.
  - intros i p m H. rewrite H. f_equal; symmetry; agent_id_tac.
  - intros i p k ch H. rewrite H. f_equal; symmetry; unfold update_relationship; agent_id_tac.
  - intros i p dx dy H. rewrite H. f_equal; symmetry; unfold update_position.
    destruct (position p). agent_id_tac.
  - intros i p m H. rewrite H. f_equal; symmetry; unfold learn_move; agent_id_tac.
  - intros i p it H. rewrite H. f_equal; symmetry; unfold add_item; agent_id_tac.
  - intros i it p H. rewrite H. f_equal; symmetry; apply agent_id_item_use.
  - intros i p H. rewrite H. f_equal; symmetry; apply agent_id_auto_use_item.
  - reflexivity.
Qed.

(** *** The colour of an agent ([PokemonALOs.get_mood_color]) *)

(** [pokemon_colors], in the dict's order. *)
Definition pokemon_colors : list (string * (R * R * R)) :=
  [("pikachu", (1, 9 / 10, 0)); ("meowth", (7 / 10, 7 / 10, 7 / 10));
   ("sprigatito", (2 / 10, 8 / 10, 3 / 10))]%R.

(** [dict.get(k, default)] on a dict given as its list of entries. *)
Fixpoint dict_get {V} (d : list (string * V)) (k : string) (dflt : V) : V :=
  match d with
  | [] => dflt
  | (k', v) :: d' => if String.eqb k k' then v else dict_get d' k dflt
  end.

Definition get_mood_color (p : PokemonALOs) : R * R * R :=
  let '(r, g, b) := dict_get pokemon_colors (key p) (1 / 2, 1 / 2, 1 / 2)%R in
  let hp_factor := Rmax (3 / 10) (IZR (hp p) / 100) in
  (r * hp_factor, g * hp_factor, b * hp_factor)%R.

Lemma dict_get_cases {V} (d : list (string * V)) (k : string) (dflt : V) :
  dict_get d k dflt = dflt \/ dict_get d k dflt ∈ snd <$> d.
Proof.
  induction d as [|[k' v] d IH]; simpl; [by left|].
  destruct (String.eqb k k'); [right; by left|].
  destruct IH as [H|H]; [by left|right; by right].
Qed.

Definition unit_color (c : R * R * R) : Prop :=
  let '(r, g, b) := c in (0 <= r <= 1 /\ 0 <= g <= 1 /\ 0 <= b <= 1)%R.

(** X19. For an agent with [hp <= 100], every component of
    [get_mood_color] lies in [0, 1] and is at least 30% of the component
    of the agent's base colour: a low hp darkens the colour, down to 30%
    of it and no further. *)
Theorem get_mood_color_bounds (p : PokemonALOs) (Hhp : hp p <= 100) :
  let '(r0, g0, b0) := dict_get pokemon_colors (key p) (1 / 2, 1 / 2, 1 / 2)%R in
  let '(r, g, b) := get_mood_color p in
  unit_color (r, g, b) /\ (3 / 10 * r0 <= r /\ 3 / 10 * g0 <= g /\ 3 / 10 * b0 <= b)%R.
Proof.
  assert (Hbase : unit_color (dict_get pokemon_colors (key p) (1 / 2, 1 / 2, 1 / 2)%R)).
  { destruct (dict_get_cases pokemon_colors (key p) (1 / 2, 1 / 2, 1 / 2)%R) as [->|H].
    - simpl. lra.
    - repeat (apply elem_of_cons in H as [->|H]; [simpl; lra|]).
      by apply elem_of_nil in H. }
  assert (Hf : (3 / 10 <= Rmax (3 / 10) (IZR (hp p) / 100) <= 1)%R).
  { apply IZR_le in Hhp. split; [apply Rmax_l|].
    apply Rmax_lub; lra. }
  unfold get_mood_color.
  destruct (dict_get pokemon_colors (key p) _) as [[r0 g0] b0].
  simpl in Hbase. simpl. nra.
Qed.

Lemma get_mood_color_bounds_witness :
  hp pk_pikachu <= 100 /\
  let '(r0, g0, b0) := dict_get pokemon_colors (key pk_pikachu) (1 / 2, 1 / 2, 1 / 2)%R in
  let '(r, g, b) := get_mood_color pk_pikachu in
  unit_color (r, g, b) /\ (3 / 10 * r0 <= r /\ 3 / 10 * g0 <= g /\ 3 / 10 * b0 <= b)%R.
Proof.
  assert (H : hp pk_pikachu <= 100) by (simpl; lia).
  split; [exact H|]. exact (get_mood_color_bounds pk_pikachu H).
Defined.
